(** * print_memory_stream.py: fetch and decode the Galactic Console memory stream

    A shallow embedding of [scripts/print_memory_stream.py] together with the
    properties its specification states.  The script is dynamically typed
    Python that talks to an externally supplied client library; the embedding
    therefore has three layers:

    - a universe [value] of the Python objects the script can meet (JSON-like
      data, bytes, and instances with an attribute table, that may also be
      callable or be a [dict] subclass);
    - an [environment] that stands for everything outside the script: the
      result of [import galactic_console_client], the behaviour of the
      callables of that library, and the codec registry;
    - the script's own functions, written against these.

    Library routines the script relies on ([base64.b64decode],
    [json.dumps], [bytes.decode], [argparse]) follow CPython 3.11. *)

From Stdlib Require Import String Ascii Bool Arith ZArith NArith Lia Zify List.
From Stdlib.Strings Require Import Byte.
From Stdlib Require Import DecimalString.
Import ListNotations.

Local Set Warnings "-register-all".

Local Open Scope N_scope.
Local Open Scope list_scope.

(** ** Text and bytes *)

(** A Python [str] is a sequence of code points; [bytes] a sequence of
    octets. *)
Definition pystr := list N.
Definition bytes := list byte.

Definition code_of_ascii (a : ascii) : N := N_of_ascii a.

(** [lit s] is the Python string literal whose characters are those of the
    (ASCII) Rocq string [s]. *)
Fixpoint lit (s : string) : pystr :=
  match s with
  | EmptyString => []
  | String a s' => code_of_ascii a :: lit s'
  end.

Fixpoint pystr_eqb (s t : pystr) : bool :=
  match s, t with
  | [], [] => true
  | a :: s', b :: t' => (a =? b) && pystr_eqb s' t'
  | _, _ => false
  end.

(** [s.startswith(p)] *)
Fixpoint startswith (s p : pystr) {struct p} : bool :=
  match p, s with
  | [], _ => true
  | b :: p', a :: s' => (a =? b) && startswith s' p'
  | _ :: _, [] => false
  end.

Definition byte_of_N (n : N) : byte :=
  match Byte.of_N n with
  | Some b => b
  | None => x00
  end.

(** ** Exceptions and results *)

(** The argument of [SystemExit]: a string is printed on the standard error
    stream and the exit status is 1; an integer is the exit status. *)
Inductive exit_code : Type :=
| ExitStr (message : string)
| ExitInt (status : Z).

Inductive exn : Type :=
| SystemExit (code : exit_code)
| ImportError
| AttributeError
| TypeError
| ValueError
| LookupError
| UnicodeEncodeError
| UnicodeDecodeError
| BinasciiError
| OtherError (name : string).

Inductive result (A : Type) : Type :=
| Ok (a : A)
| Err (e : exn).
Arguments Ok {A} a.
Arguments Err {A} e.

Definition rbind {A B : Type} (r : result A) (k : A -> result B) : result B :=
  match r with
  | Ok a => k a
  | Err e => Err e
  end.

(** ** Python objects *)

(** Callables of the client library are opaque: a callable object carries the
    identifier under which the environment knows its behaviour. *)
Definition fn_id := nat.

(** The objects the script can meet.  [VObj attrs call items] is an instance,
    module, class or function: [attrs] is what [getattr] finds on it, [call]
    is present when the object is callable, and [items] is present when its
    class derives from [dict] (so that it is both an attribute holder and a
    mapping).  The builtin types have none of the attribute names the script
    asks for, and reject attribute assignment. *)
Inductive value : Type :=
| VNone
| VBool (b : bool)
| VInt (z : Z)
| VStr (s : pystr)
| VBytes (b : bytes)
| VByteArray (b : bytes)
| VList (xs : list value)
| VDict (items : list (pystr * value))
| VObj (attrs : list (string * value)) (call : option fn_id)
       (items : option (list (pystr * value))).

Definition is_none (v : value) : bool :=
  match v with
  | VNone => true
  | _ => false
  end.

(** First binding of a name in an attribute table. *)
Fixpoint assoc_attr (name : string) (attrs : list (string * value)) : option value :=
  match attrs with
  | [] => None
  | (n, v) :: rest => if String.eqb name n then Some v else assoc_attr name rest
  end.

(** First binding of a key among the items of a mapping. *)
Fixpoint assoc_key (key : pystr) (items : list (pystr * value)) : option value :=
  match items with
  | [] => None
  | (k, v) :: rest => if pystr_eqb key k then Some v else assoc_key key rest
  end.

(** Attribute lookup; [None] is [AttributeError]. *)
Definition lookup_attr (obj : value) (name : string) : option value :=
  match obj with
  | VObj attrs _ _ => assoc_attr name attrs
  | _ => None
  end.

(** [hasattr(obj, name)] *)
Definition hasattr (obj : value) (name : string) : bool :=
  match lookup_attr obj name with
  | Some _ => true
  | None => false
  end.

(** [getattr(obj, name, default)] *)
Definition getattr_default (obj : value) (name : string) (default : value) : value :=
  match lookup_attr obj name with
  | Some v => v
  | None => default
  end.

(** [getattr(obj, name)], or the attribute reference [obj.name] *)
Definition getattr (obj : value) (name : string) : result value :=
  match lookup_attr obj name with
  | Some v => Ok v
  | None => Err AttributeError
  end.

(** [callable(obj)] *)
Definition callable (obj : value) : bool :=
  match obj with
  | VObj _ (Some _) _ => true
  | _ => false
  end.

(** [isinstance(obj, dict)], with the items when it holds. *)
Definition dict_items (obj : value) : option (list (pystr * value)) :=
  match obj with
  | VDict items => Some items
  | VObj _ _ (Some items) => Some items
  | _ => None
  end.

(** ** Standard base64, strict mode

    [base64.b64decode(s, validate=True)] on a [str]: the text is first encoded
    as ASCII ([ValueError] when that fails) and then handed to
    [binascii.a2b_base64] in strict mode, whose scanning loop is [a2b_loop].
    [quad_pos] counts the characters of the current group of four,
    [leftchar] holds the bits not yet written, [pads] the padding characters
    seen in the current group. *)

Definition b64_pad : N := 61.

Definition b64_digit (c : N) : option N :=
  if (65 <=? c) && (c <=? 90) then Some (c - 65)
  else if (97 <=? c) && (c <=? 122) then Some (c - 71)
  else if (48 <=? c) && (c <=? 57) then Some (c + 4)
  else if c =? 43 then Some 62
  else if c =? 47 then Some 63
  else None.

Definition push_byte (n : N) (r : result bytes) : result bytes :=
  match r with
  | Ok bs => Ok (byte_of_N n :: bs)
  | Err e => Err e
  end.

Fixpoint a2b_loop (s : pystr) (quad_pos leftchar pads : N)
    (padding_started : bool) : result bytes :=
  match s with
  | [] => if quad_pos =? 0 then Ok [] else Err BinasciiError
  | c :: rest =>
      if c =? b64_pad then
        if 2 <=? quad_pos then
          if 4 <=? quad_pos + (pads + 1) then
            match rest with
            | [] => Ok []
            | _ :: _ => Err BinasciiError
            end
          else a2b_loop rest quad_pos leftchar (pads + 1) true
        else a2b_loop rest quad_pos leftchar pads true
      else
        match b64_digit c with
        | None => Err BinasciiError
        | Some d =>
            if padding_started then Err BinasciiError
            else if quad_pos =? 0 then a2b_loop rest 1 d 0 false
            else if quad_pos =? 1 then
              push_byte (N.lor (N.shiftl leftchar 2) (N.shiftr d 4))
                        (a2b_loop rest 2 (N.land d 15) 0 false)
            else if quad_pos =? 2 then
              push_byte (N.lor (N.shiftl leftchar 4) (N.shiftr d 2))
                        (a2b_loop rest 3 (N.land d 3) 0 false)
            else
              push_byte (N.lor (N.shiftl leftchar 6) d)
                        (a2b_loop rest 0 0 0 false)
        end
  end.

Definition a2b_base64_strict (s : pystr) : result bytes :=
  match s with
  | c :: _ => if c =? b64_pad then Err BinasciiError else a2b_loop s 0 0 0 false
  | [] => a2b_loop s 0 0 0 false
  end.

Definition b64decode_validate (s : pystr) : result bytes :=
  if forallb (fun c => c <? 128) s then a2b_base64_strict s
  else Err ValueError.

(** ** UTF-8 *)

Definition replacement_character : N := 0xFFFD.

Definition in_range (lo hi b : N) : bool := (lo <=? b) && (b <=? hi).

Definition is_continuation (b : N) : bool := in_range 0x80 0xBF b.

(** For a lead byte: how many continuation bytes follow and the range the
    first of them must lie in (the well-formed byte sequences of the
    Unicode standard); [None] for a byte that cannot start a sequence. *)
Definition utf8_lead (b : N) : option (N * N * N) :=
  if in_range 0xC2 0xDF b then Some (1, 0x80, 0xBF)
  else if b =? 0xE0 then Some (2, 0xA0, 0xBF)
  else if in_range 0xE1 0xEC b then Some (2, 0x80, 0xBF)
  else if b =? 0xED then Some (2, 0x80, 0x9F)
  else if in_range 0xEE 0xEF b then Some (2, 0x80, 0xBF)
  else if b =? 0xF0 then Some (3, 0x90, 0xBF)
  else if in_range 0xF1 0xF3 b then Some (3, 0x80, 0xBF)
  else if b =? 0xF4 then Some (3, 0x80, 0x8F)
  else None.

Definition payload (b : N) : N := N.land b 0x3F.

(** The decoder's scan: a code point for every well-formed sequence, and
    [None] for every maximal ill-formed part (the span the decoder reports
    to its error handler). *)
Fixpoint utf8_scan (bs : bytes) : list (option N) :=
  match bs with
  | [] => []
  | b0 :: rest =>
      let c0 := Byte.to_N b0 in
      if c0 <? 0x80 then Some c0 :: utf8_scan rest
      else
        match utf8_lead c0 with
        | None => None :: utf8_scan rest
        | Some (n, lo, hi) =>
            match rest with
            | [] => [None]
            | b1 :: r1 =>
                let c1 := Byte.to_N b1 in
                if negb (in_range lo hi c1) then None :: utf8_scan rest
                else if n =? 1 then
                  Some (N.land c0 0x1F * 64 + payload c1) :: utf8_scan r1
                else
                  match r1 with
                  | [] => [None]
                  | b2 :: r2 =>
                      let c2 := Byte.to_N b2 in
                      if negb (is_continuation c2) then None :: utf8_scan r1
                      else if n =? 2 then
                        Some (N.land c0 0x0F * 4096 + payload c1 * 64 + payload c2)
                          :: utf8_scan r2
                      else
                        match r2 with
                        | [] => [None]
                        | b3 :: r3 =>
                            let c3 := Byte.to_N b3 in
                            if negb (is_continuation c3) then None :: utf8_scan r2
                            else
                              Some (N.land c0 0x07 * 262144 + payload c1 * 4096
                                    + payload c2 * 64 + payload c3)
                                :: utf8_scan r3
                        end
                  end
            end
        end
  end.

(** [bs.decode("utf-8")] *)
Fixpoint utf8_strict (items : list (option N)) : option pystr :=
  match items with
  | [] => Some []
  | Some c :: rest => option_map (cons c) (utf8_strict rest)
  | None :: _ => None
  end.

Definition utf8_decode (bs : bytes) : option pystr := utf8_strict (utf8_scan bs).

(** [bs.decode("utf-8", errors="replace")] *)
Definition utf8_decode_replace (bs : bytes) : pystr :=
  map (fun item => match item with
                   | Some c => c
                   | None => replacement_character
                   end) (utf8_scan bs).

Definition utf8_encode_char (c : N) : option bytes :=
  if c <? 0x80 then Some [byte_of_N c]
  else if c <? 0x800 then
    Some [byte_of_N (0xC0 + c / 64); byte_of_N (0x80 + c mod 64)]
  else if in_range 0xD800 0xDFFF c then None
  else if c <? 0x10000 then
    Some [byte_of_N (0xE0 + c / 4096); byte_of_N (0x80 + (c / 64) mod 64);
          byte_of_N (0x80 + c mod 64)]
  else
    Some [byte_of_N (0xF0 + c / 262144); byte_of_N (0x80 + (c / 4096) mod 64);
          byte_of_N (0x80 + (c / 64) mod 64); byte_of_N (0x80 + c mod 64)].

(** [s.encode("utf-8")] *)
Fixpoint utf8_encode (s : pystr) : option bytes :=
  match s with
  | [] => Some []
  | c :: rest =>
      match utf8_encode_char c, utf8_encode rest with
      | Some b, Some bs => Some (b ++ bs)
      | _, _ => None
      end
  end.

(** ** Codecs *)

(** A text codec: strict encoding and strict decoding.  [None] is the
    codec's error: [UnicodeEncodeError] from an encoder, [UnicodeDecodeError]
    from a decoder. *)
Record codec : Type := {
  encode : pystr -> option bytes;
  decode : bytes -> option pystr
}.

Definition utf8_codec : codec := {| encode := utf8_encode; decode := utf8_decode |}.

(** Single-byte codecs that map the first [limit] code points to themselves:
    ASCII with [limit = 128], Latin-1 with [limit = 256]. *)
Fixpoint narrow_encode (limit : N) (s : pystr) : option bytes :=
  match s with
  | [] => Some []
  | c :: rest =>
      if c <? limit then option_map (cons (byte_of_N c)) (narrow_encode limit rest)
      else None
  end.

Fixpoint narrow_decode (limit : N) (bs : bytes) : option pystr :=
  match bs with
  | [] => Some []
  | b :: rest =>
      if Byte.to_N b <? limit then
        option_map (cons (Byte.to_N b)) (narrow_decode limit rest)
      else None
  end.

Definition ascii_codec : codec :=
  {| encode := narrow_encode 128; decode := narrow_decode 128 |}.
Definition latin1_codec : codec :=
  {| encode := narrow_encode 256; decode := narrow_decode 256 |}.

(** A registry with the three codecs above, under their usual names. *)
Definition std_codecs (name : pystr) : option codec :=
  if pystr_eqb name (lit "utf-8") || pystr_eqb name (lit "utf8") then Some utf8_codec
  else if pystr_eqb name (lit "ascii") then Some ascii_codec
  else if pystr_eqb name (lit "latin-1") || pystr_eqb name (lit "latin1")
  then Some latin1_codec
  else None.

(** ** JSON serialisation

    [json.dumps(obj, ensure_ascii=False)] on the objects of [value].
    Floating-point numbers and tuples are left out of [value]; bytes and
    instances that are not mappings are rejected with [TypeError], as the
    default encoder does. *)

Definition quote_char : N := 34.
Definition backslash : N := 92.

Definition hex_digit (n : N) : N := if n <? 10 then 48 + n else 87 + n.

(** The escapes of [json.encoder.encode_basestring]. *)
Definition json_escape_char (c : N) : pystr :=
  if c =? quote_char then [backslash; quote_char]
  else if c =? backslash then [backslash; backslash]
  else if c =? 8 then backslash :: lit "b"
  else if c =? 12 then backslash :: lit "f"
  else if c =? 10 then backslash :: lit "n"
  else if c =? 13 then backslash :: lit "r"
  else if c =? 9 then backslash :: lit "t"
  else if c <? 32 then backslash :: lit "u00" ++ [hex_digit (c / 16); hex_digit (c mod 16)]
  else [c].

Definition encode_basestring (s : pystr) : pystr :=
  quote_char :: flat_map json_escape_char s ++ [quote_char].

(** [repr] of an [int]. *)
Definition int_repr (z : Z) : pystr := lit (NilZero.string_of_int (Z.to_int z)).

(** [sep.join(parts)] *)
Fixpoint join (sep : pystr) (parts : list pystr) : pystr :=
  match parts with
  | [] => []
  | [p] => p
  | p :: rest => p ++ sep ++ join sep rest
  end.

(** Apply a fallible function to every element, stopping at the first
    failure. *)
Fixpoint collect {A B : Type} (f : A -> result B) (xs : list A) : result (list B) :=
  match xs with
  | [] => Ok []
  | x :: xs' =>
      rbind (f x) (fun t =>
      rbind (collect f xs') (fun ts => Ok (t :: ts)))
  end.

Fixpoint json_dumps (obj : value) : result pystr :=
  let member (item : pystr * value) : result pystr :=
    rbind (json_dumps (snd item)) (fun t =>
    Ok (encode_basestring (fst item) ++ lit ": " ++ t)) in
  let object (items : list (pystr * value)) : result pystr :=
    rbind (collect member items) (fun ts =>
    Ok (lit "{" ++ join (lit ", ") ts ++ lit "}")) in
  match obj with
  | VNone => Ok (lit "null")
  | VBool true => Ok (lit "true")
  | VBool false => Ok (lit "false")
  | VInt z => Ok (int_repr z)
  | VStr s => Ok (encode_basestring s)
  | VList xs =>
      rbind (collect json_dumps xs) (fun ts =>
      Ok (lit "[" ++ join (lit ", ") ts ++ lit "]"))
  | VDict items => object items
  | VObj _ _ (Some items) => object items
  | VObj _ _ None => Err TypeError
  | VBytes _ => Err TypeError
  | VByteArray _ => Err TypeError
  end.

(** ** The environment of a run *)

Record environment : Type := {
  (** what [import galactic_console_client] binds; [None] when the import
      raises [ImportError] *)
  galactic_console_client : option value;
  (** behaviour of the library's callables on positional and keyword
      arguments *)
  call_fn : fn_id -> list value -> list (string * value) -> result value;
  (** the codec registry: [None] for an unknown encoding name *)
  codecs : pystr -> option codec
}.

(** [s.encode(encoding, errors="strict")] *)
Definition str_encode (env : environment) (s : pystr) (encoding : pystr) : result bytes :=
  match codecs env encoding with
  | Some c =>
      match encode c s with
      | Some bs => Ok bs
      | None => Err UnicodeEncodeError
      end
  | None => Err LookupError
  end.

(** [bs.decode(encoding)] *)
Definition bytes_decode (env : environment) (bs : bytes) (encoding : pystr) : result pystr :=
  match codecs env encoding with
  | Some c =>
      match decode c bs with
      | Some s => Ok s
      | None => Err UnicodeDecodeError
      end
  | None => Err LookupError
  end.

(** ** Runs: results with a trace

    A run yields the events it caused, in order, and a result.  The events
    are the interactions with the outside (the import, the calls into the
    client library, what is printed) and the stages [main] enters. *)

Inductive stage : Type :=
| Resolve | Instantiate | Invoke | Extract | Decode | Print.

Inductive event : Type :=
| Enter (s : stage)
| Imported (found : bool)
| Called (f : fn_id) (args : list value) (kwargs : list (string * value))
| Printed (text : pystr).

Definition run (A : Type) : Type := (list event * result A)%type.

Definition ret {A : Type} (a : A) : run A := ([], Ok a).
Definition raise {A : Type} (e : exn) : run A := ([], Err e).
Definition lift {A : Type} (r : result A) : run A := ([], r).
Definition emit (e : event) : run unit := ([e], Ok tt).

Definition bind {A B : Type} (m : run A) (k : A -> run B) : run B :=
  match m with
  | (t, Ok a) => let (t', r) := k a in (t ++ t', r)
  | (t, Err e) => (t, Err e)
  end.

Declare Scope run_scope.
Delimit Scope run_scope with run.
Notation "x <- m ;; k" := (bind m (fun x => k))
  (at level 61, m at next level, right associativity) : run_scope.
Notation "m ;;; k" := (bind m (fun _ => k))
  (at level 61, right associativity) : run_scope.
Local Open Scope run_scope.

Definition trace {A : Type} (m : run A) : list event := fst m.
Definition outcome {A : Type} (m : run A) : result A := snd m.

(** A call of [f] with positional arguments [args] and keyword arguments
    [kwargs]; calling an object that is not callable is a [TypeError]. *)
Definition call (env : environment) (f : value) (args : list value)
    (kwargs : list (string * value)) : run value :=
  match f with
  | VObj _ (Some id) _ => ([Called id args kwargs], call_fn env id args kwargs)
  | _ => raise TypeError
  end.

(** [print(text)] *)
Definition print (text : pystr) : run unit := emit (Printed text).

(** ** The script *)

Definition missing_dependency : string :=
  "The 'galactic_console_client' package is required. Install it before running this script.".
Definition no_get_system : string :=
  "Unable to locate a 'getSystem' call on the client.".
Definition no_data : string :=
  "The getSystem call returned no data.".
Definition no_memory_stream : string :=
  "The system payload does not contain a memory stream.".

(** *** [_import_client] *)

Definition _import_client (env : environment) : run value :=
  match galactic_console_client env with
  | Some module => emit (Imported true) ;;; ret module
  | None => emit (Imported false) ;;; raise (SystemExit (ExitStr missing_dependency))
  end.

(** *** [_create_client] *)

(** Truth value of a [str | None]. *)
Definition truthy (s : option pystr) : option pystr :=
  match s with
  | Some (c :: rest) => Some (c :: rest)
  | _ => None
  end.

Fixpoint set_assoc_attr (name : string) (v : value) (attrs : list (string * value))
    : list (string * value) :=
  match attrs with
  | [] => [(name, v)]
  | (n, x) :: rest =>
      if String.eqb name n then (n, v) :: rest
      else (n, x) :: set_assoc_attr name v rest
  end.

Fixpoint set_assoc_key (key : pystr) (v : value) (items : list (pystr * value))
    : list (pystr * value) :=
  match items with
  | [] => [(key, v)]
  | (k, x) :: rest =>
      if pystr_eqb key k then (k, v) :: rest
      else (k, x) :: set_assoc_key key v rest
  end.

(** [obj.name = v]; the object after the assignment. *)
Definition setattr (obj : value) (name : string) (v : value) : result value :=
  match obj with
  | VObj attrs c items => Ok (VObj (set_assoc_attr name v attrs) c items)
  | _ => Err AttributeError
  end.

(** [obj[key] = v]; the object after the assignment. *)
Definition setitem (obj : value) (key : pystr) (v : value) : result value :=
  match obj with
  | VDict items => Ok (VDict (set_assoc_key key v items))
  | VObj attrs c (Some items) => Ok (VObj attrs c (Some (set_assoc_key key v items)))
  | _ => Err TypeError
  end.

(** The keyword arguments of pattern 1. *)
Definition client_kwargs (base_url api_key : option pystr) : list (string * value) :=
  match truthy base_url with
  | Some u => [("base_url"%string, VStr u)]
  | None => []
  end ++
  match truthy api_key with
  | Some k => [("api_key"%string, VStr k)]
  | None => []
  end.

(** The assignments of pattern 2 on a fresh configuration object.  The
    dictionary stored under [api_key] is the one that is then updated, so the
    configuration ends up holding the updated dictionary. *)
Definition configure (configuration : value) (base_url api_key : option pystr)
    : result value :=
  rbind (match truthy base_url with
         | Some u => setattr configuration "host" (VStr u)
         | None => Ok configuration
         end) (fun configuration =>
  match truthy api_key with
  | Some k =>
      rbind (setattr configuration "api_key"
               (getattr_default configuration "api_key" (VDict []))) (fun configuration =>
      rbind (getattr configuration "api_key") (fun keys =>
      rbind (setitem keys (lit "api_key") (VStr k)) (fun keys =>
      setattr configuration "api_key" keys)))
  | None => Ok configuration
  end).

(** The first of the named attributes of the module that is not [None]. *)
Fixpoint first_api (client_module : value) (names : list string) : option value :=
  match names with
  | [] => None
  | attr_name :: rest =>
      let api := getattr_default client_module attr_name VNone in
      if is_none api then first_api client_module rest else Some api
  end.

Definition _create_client (env : environment) (client_module : value)
    (base_url api_key : option pystr) : run value :=
  if hasattr client_module "GalacticConsoleClient" then
    ctor <- lift (getattr client_module "GalacticConsoleClient") ;;
    call env ctor [] (client_kwargs base_url api_key)
  else if hasattr client_module "Configuration" && hasattr client_module "ApiClient" then
    ctor <- lift (getattr client_module "Configuration") ;;
    configuration <- call env ctor [] [] ;;
    configuration <- lift (configure configuration base_url api_key) ;;
    ctor <- lift (getattr client_module "ApiClient") ;;
    api_client <- call env ctor [configuration] [] ;;
    match first_api client_module ["SystemApi"; "SystemsApi"; "DefaultApi"]%string with
    | Some api => call env api [api_client] []
    | None => ret api_client
    end
  else ret client_module.

(** *** [_call_get_system] *)

Definition nested_names : list string := ["system"; "systems"; "console"]%string.
Definition method_names : list string := ["getSystem"; "get_system"]%string.

Definition candidate_objects (client : value) : list value :=
  client ::
  flat_map (fun attr_name =>
              let nested := getattr_default client attr_name VNone in
              if is_none nested then [] else [nested]) nested_names.

(** The inner loop: the first callable among the named attributes. *)
Fixpoint find_method (obj : value) (names : list string) : option value :=
  match names with
  | [] => None
  | name :: rest =>
      let method := getattr_default obj name VNone in
      if callable method then Some method else find_method obj rest
  end.

(** The outer loop over the candidate objects. *)
Fixpoint locate_get_system (objs : list value) : option value :=
  match objs with
  | [] => None
  | obj :: rest =>
      match find_method obj method_names with
      | Some method => Some method
      | None => locate_get_system rest
      end
  end.

Definition _call_get_system (env : environment) (client : value) : run value :=
  match locate_get_system (candidate_objects client) with
  | Some method => call env method [] []
  | None => raise (SystemExit (ExitStr no_get_system))
  end.

(** *** [_extract_memory_stream] *)

Definition attr_names : list string := ["memory_stream"; "memoryStream"; "memory"]%string.
Definition key_names : list pystr :=
  [lit "memory_stream"; lit "memoryStream"; lit "memory"; lit "memory_streams"].

Fixpoint first_attr (obj : value) (names : list string) : option value :=
  match names with
  | [] => None
  | attr_name :: rest =>
      match lookup_attr obj attr_name with
      | Some v => Some v
      | None => first_attr obj rest
      end
  end.

Fixpoint first_key (items : list (pystr * value)) (keys : list pystr) : option value :=
  match keys with
  | [] => None
  | key :: rest =>
      match assoc_key key items with
      | Some v => Some v
      | None => first_key items rest
      end
  end.

Definition _extract_memory_stream (system_payload : value) : result value :=
  if is_none system_payload then Err (SystemExit (ExitStr no_data))
  else
    match first_attr system_payload attr_names with
    | Some v => Ok v
    | None =>
        match dict_items system_payload with
        | Some items =>
            match first_key items key_names with
            | Some v => Ok v
            | None => Err (SystemExit (ExitStr no_memory_stream))
            end
        | None => Err (SystemExit (ExitStr no_memory_stream))
        end
    end.

(** *** [_decode_memory_stream] *)

(** The bytes the value stands for. *)
Definition raw_bytes_of (env : environment) (memory_stream : value) (encoding : pystr)
    : result bytes :=
  match memory_stream with
  | VBytes b => Ok b
  | VByteArray b => Ok b
  | VStr s =>
      match b64decode_validate s with
      | Ok b => Ok b
      | Err BinasciiError => str_encode env s encoding
      | Err ValueError => str_encode env s encoding
      | Err e => Err e
      end
  | _ => rbind (json_dumps memory_stream) (fun s => str_encode env s encoding)
  end.

(** The final [try]: decode, and on [UnicodeDecodeError] decode as UTF-8
    with replacement characters. *)
Definition decode_or_replace (env : environment) (raw_bytes : bytes) (encoding : pystr)
    : result pystr :=
  match bytes_decode env raw_bytes encoding with
  | Err UnicodeDecodeError => Ok (utf8_decode_replace raw_bytes)
  | r => r
  end.

Definition _decode_memory_stream (env : environment) (memory_stream : value)
    (encoding : pystr) : result pystr :=
  rbind (raw_bytes_of env memory_stream encoding) (fun raw_bytes =>
  decode_or_replace env raw_bytes encoding).

(** *** [parse_args]

    The parser built by [parse_args] has the option strings [-h] and
    [--help] (which [argparse.ArgumentParser] adds itself) and the three
    declared ones, each storing one string.  What follows is
    [ArgumentParser.parse_args] specialised to this parser: every argument
    string is first classified ([_parse_optional], with the abbreviation
    search of [_get_option_tuples]), then the options are consumed from left
    to right.  [argparse] reports an error by printing a usage message and
    exiting with status 2, and serves [-h] by printing the help and exiting
    with status 0; the texts are not modelled, the exits are.  The argument
    list is the effective one: [sys.argv[1:]] when the script is run.  (For
    the explicit argument [--] of [--flag=--], CPython 3.11 stores an empty
    list; the string is kept here.) *)

Record namespace : Type := {
  base_url : option pystr;
  api_key : option pystr;
  encoding : pystr
}.

Inductive dest : Type := BaseUrl | ApiKey | Encoding.

Inductive action : Type :=
| Help
| Store (d : dest).

Definition option_string_actions : list (pystr * action) :=
  [(lit "-h", Help); (lit "--help", Help);
   (lit "--base-url", Store BaseUrl);
   (lit "--api-key", Store ApiKey);
   (lit "--encoding", Store Encoding)].

Definition default_namespace : namespace :=
  {| base_url := None; api_key := None; encoding := lit "utf-8" |}.

Definition store (d : dest) (v : pystr) (ns : namespace) : namespace :=
  match d with
  | BaseUrl => {| base_url := Some v; api_key := api_key ns; encoding := encoding ns |}
  | ApiKey => {| base_url := base_url ns; api_key := Some v; encoding := encoding ns |}
  | Encoding => {| base_url := base_url ns; api_key := api_key ns; encoding := v |}
  end.

Definition usage_error {A : Type} : result A := Err (SystemExit (ExitInt 2)).
Definition help_exit {A : Type} : result A := Err (SystemExit (ExitInt 0)).

Definition dash : N := 45.
Definition equals_sign : N := 61.

Fixpoint lookup_option (table : list (pystr * action)) (s : pystr) : option action :=
  match table with
  | [] => None
  | (name, act) :: rest => if pystr_eqb s name then Some act else lookup_option rest s
  end.

(** [s.split('=', 1)], when [s] contains an equals sign. *)
Fixpoint split_equals (s : pystr) : option (pystr * pystr) :=
  match s with
  | [] => None
  | c :: rest =>
      if c =? equals_sign then Some ([], rest)
      else
        match split_equals rest with
        | Some (before, after) => Some (c :: before, after)
        | None => None
        end
  end.

(** The characters [\d] matches in a [str] pattern: the decimal digits of
    Unicode 14. *)
Definition decimal_ranges : list (N * N) :=
  [(0x30, 0x39); (0x660, 0x669); (0x6F0, 0x6F9); (0x7C0, 0x7C9); (0x966, 0x96F);
   (0x9E6, 0x9EF); (0xA66, 0xA6F); (0xAE6, 0xAEF); (0xB66, 0xB6F); (0xBE6, 0xBEF);
   (0xC66, 0xC6F); (0xCE6, 0xCEF); (0xD66, 0xD6F); (0xDE6, 0xDEF); (0xE50, 0xE59);
   (0xED0, 0xED9); (0xF20, 0xF29); (0x1040, 0x1049); (0x1090, 0x1099);
   (0x17E0, 0x17E9); (0x1810, 0x1819); (0x1946, 0x194F); (0x19D0, 0x19D9);
   (0x1A80, 0x1A89); (0x1A90, 0x1A99); (0x1B50, 0x1B59); (0x1BB0, 0x1BB9);
   (0x1C40, 0x1C49); (0x1C50, 0x1C59); (0xA620, 0xA629); (0xA8D0, 0xA8D9);
   (0xA900, 0xA909); (0xA9D0, 0xA9D9); (0xA9F0, 0xA9F9); (0xAA50, 0xAA59);
   (0xABF0, 0xABF9); (0xFF10, 0xFF19); (0x104A0, 0x104A9); (0x10D30, 0x10D39);
   (0x11066, 0x1106F); (0x110F0, 0x110F9); (0x11136, 0x1113F); (0x111D0, 0x111D9);
   (0x112F0, 0x112F9); (0x11450, 0x11459); (0x114D0, 0x114D9); (0x11650, 0x11659);
   (0x116C0, 0x116C9); (0x11730, 0x11739); (0x118E0, 0x118E9); (0x11950, 0x11959);
   (0x11C50, 0x11C59); (0x11D50, 0x11D59); (0x11DA0, 0x11DA9); (0x16A60, 0x16A69);
   (0x16AC0, 0x16AC9); (0x16B50, 0x16B59); (0x1D7CE, 0x1D7FF); (0x1E140, 0x1E149);
   (0x1E2F0, 0x1E2F9); (0x1E950, 0x1E959); (0x1FBF0, 0x1FBF9)].

Definition is_decimal (c : N) : bool :=
  existsb (fun r => in_range (fst r) (snd r) c) decimal_ranges.

Fixpoint drop_decimals (s : pystr) : pystr :=
  match s with
  | c :: rest => if is_decimal c then drop_decimals rest else s
  | [] => []
  end.

Definition all_decimals (s : pystr) : bool :=
  match s with
  | [] => false
  | _ :: _ => forallb is_decimal s
  end.

(** The end-of-string anchor also matches before one final line feed. *)
Definition chomp (s : pystr) : pystr :=
  match rev s with
  | 10 :: r => rev r
  | _ => s
  end.

(** [_negative_number_matcher]: the pattern
    [^-\d+$|^-\d*\.\d+$]. *)
Definition negative_number (s : pystr) : bool :=
  match chomp s with
  | c :: body =>
      (c =? dash) &&
      (all_decimals body ||
       match drop_decimals body with
       | d :: fraction => (d =? 46) && all_decimals fraction
       | [] => false
       end)
  | [] => false
  end.

Definition option_tuple : Type := (action * pystr * option pystr)%type.

Definition _get_option_tuples (option_string : pystr) : list option_tuple :=
  match option_string with
  | c0 :: c1 :: _ =>
      if (c0 =? dash) && (c1 =? dash) then
        let (option_prefix, explicit_arg) :=
          match split_equals option_string with
          | Some (before, after) => (before, Some after)
          | None => (option_string, None)
          end in
        flat_map (fun entry : pystr * action =>
                    if startswith (fst entry) option_prefix
                    then [(snd entry, fst entry, explicit_arg)] else [])
                 option_string_actions
      else if c0 =? dash then
        let short_option_prefix := [c0; c1] in
        let short_explicit_arg := skipn 2 option_string in
        flat_map (fun entry : pystr * action =>
                    if pystr_eqb (fst entry) short_option_prefix
                    then [(snd entry, fst entry, Some short_explicit_arg)]
                    else if startswith (fst entry) option_string
                    then [(snd entry, fst entry, None)] else [])
                 option_string_actions
      else []
  | _ => []
  end.

(** The outcome of [_parse_optional]: a positional argument ([None] in the
    source), an option with its action when there is one, its option string
    and its explicit argument, or the ambiguity error. *)
Inductive parsed : Type :=
| Positional
| Optional (act : option action) (option_string : pystr) (explicit_arg : option pystr)
| Ambiguous.

Definition exact_before_equals (arg_string : pystr) : option option_tuple :=
  match split_equals arg_string with
  | Some (option_string, explicit_arg) =>
      match lookup_option option_string_actions option_string with
      | Some act => Some (act, option_string, Some explicit_arg)
      | None => None
      end
  | None => None
  end.

Definition _parse_optional (arg_string : pystr) : parsed :=
  match arg_string with
  | [] => Positional
  | c0 :: tail =>
      if negb (c0 =? dash) then Positional
      else
        match lookup_option option_string_actions arg_string with
        | Some act => Optional (Some act) arg_string None
        | None =>
            match tail with
            | [] => Positional
            | _ :: _ =>
                match exact_before_equals arg_string with
                | Some (act, option_string, explicit_arg) =>
                    Optional (Some act) option_string explicit_arg
                | None =>
                    match _get_option_tuples arg_string with
                    | _ :: _ :: _ => Ambiguous
                    | [(act, option_string, explicit_arg)] =>
                        Optional (Some act) option_string explicit_arg
                    | [] =>
                        if negative_number arg_string then Positional
                        else if existsb (N.eqb 32) arg_string then Positional
                        else Optional None arg_string None
                    end
                end
            end
        end
  end.

(** The entries of the argument pattern: [A], [-] and [O]. *)
Inductive pattern : Type :=
| PArgument
| PSeparator
| POption (act : option action) (option_string : pystr) (explicit_arg : option pystr).

Fixpoint classify (arg_strings : list pystr) : result (list (pystr * pattern)) :=
  match arg_strings with
  | [] => Ok []
  | arg_string :: rest =>
      if pystr_eqb arg_string (lit "--") then
        Ok ((arg_string, PSeparator) :: map (fun a => (a, PArgument)) rest)
      else
        match _parse_optional arg_string with
        | Ambiguous => usage_error
        | Positional =>
            rbind (classify rest) (fun items => Ok ((arg_string, PArgument) :: items))
        | Optional act option_string explicit_arg =>
            rbind (classify rest) (fun items =>
            Ok ((arg_string, POption act option_string explicit_arg) :: items))
        end
  end.

(** [-h] with an explicit argument: the tail is read as further
    single-dash options, and only [h] is one. *)
Fixpoint help_chain (explicit_arg : pystr) : exn :=
  match explicit_arg with
  | [] => SystemExit (ExitInt 2)
  | c :: rest =>
      if c =? 104 then
        match rest with
        | [] => SystemExit (ExitInt 0)
        | _ :: _ => help_chain rest
        end
      else SystemExit (ExitInt 2)
  end.

(** The consuming loop; [extras] collects what no option took. *)
Fixpoint consume (items : list (pystr * pattern)) (ns : namespace) (extras : list pystr)
    : result (namespace * list pystr) :=
  match items with
  | [] => Ok (ns, extras)
  | (arg_string, PArgument) :: rest => consume rest ns (extras ++ [arg_string])
  | (arg_string, PSeparator) :: rest => consume rest ns (extras ++ [arg_string])
  | (arg_string, POption None _ _) :: rest => consume rest ns (extras ++ [arg_string])
  | (_, POption (Some Help) _ None) :: _ => help_exit
  | (_, POption (Some Help) option_string (Some explicit_arg)) :: _ =>
      if pystr_eqb option_string (lit "-h") then Err (help_chain explicit_arg)
      else usage_error
  | (_, POption (Some (Store d)) _ (Some explicit_arg)) :: rest =>
      consume rest (store d explicit_arg ns) extras
  | (_, POption (Some (Store d)) _ None) :: rest =>
      match rest with
      | (v, PArgument) :: rest' => consume rest' (store d v ns) extras
      | _ => usage_error
      end
  end.

Definition parse_args (argv : list pystr) : result namespace :=
  rbind (classify argv) (fun items =>
  rbind (consume items default_namespace []) (fun parsed_args =>
  match snd parsed_args with
  | [] => Ok (fst parsed_args)
  | _ :: _ => usage_error
  end)).

(** *** [main] *)

Definition entering {A : Type} (s : stage) (m : run A) : run A :=
  emit (Enter s) ;;; m.

Definition main (env : environment) (argv : list pystr) : run Z :=
  args <- lift (parse_args argv) ;;
  client_module <- entering Resolve (_import_client env) ;;
  client <- entering Instantiate
              (_create_client env client_module (base_url args) (api_key args)) ;;
  system_payload <- entering Invoke (_call_get_system env client) ;;
  memory_stream <- entering Extract (lift (_extract_memory_stream system_payload)) ;;
  decoded <- entering Decode
               (lift (_decode_memory_stream env memory_stream (encoding args))) ;;
  entering Print (print decoded) ;;;
  ret 0%Z.

(** ** The process

    The script ends with [raise SystemExit(main())].  An exception other than
    [SystemExit] that escapes [main] makes the interpreter print a traceback,
    whose last line names the exception, and exit with status 1. *)

Definition exn_name (e : exn) : string :=
  match e with
  | SystemExit _ => "SystemExit"
  | ImportError => "ImportError"
  | AttributeError => "AttributeError"
  | TypeError => "TypeError"
  | ValueError => "ValueError"
  | LookupError => "LookupError"
  | UnicodeEncodeError => "UnicodeEncodeError"
  | UnicodeDecodeError => "UnicodeDecodeError"
  | BinasciiError => "binascii.Error"
  | OtherError name => name
  end.

Definition exit_status (r : result Z) : Z :=
  match r with
  | Ok status => status
  | Err (SystemExit (ExitInt status)) => status
  | Err _ => 1%Z
  end.

(** What the interpreter writes on the standard error stream when the
    process ends. *)
Definition diagnostic (r : result Z) : string :=
  match r with
  | Ok _ => ""
  | Err (SystemExit (ExitStr message)) => message
  | Err (SystemExit (ExitInt _)) => ""
  | Err e => "Traceback (most recent call last): " ++ exn_name e
  end.

(** What the process wrote on the standard output stream. *)
Definition stdout (t : list event) : list pystr :=
  flat_map (fun e => match e with
                     | Printed text => [text]
                     | _ => []
                     end) t.

(** ** The decoding as the specification words it

    Bytes are decoded with the given encoding; a string that validates as
    base64 is base64-decoded and then decoded; every other value is
    serialised as JSON, encoded and decoded. *)

Definition validated_base64 (memory_stream : value) : option bytes :=
  match memory_stream with
  | VStr s =>
      match b64decode_validate s with
      | Ok raw => Some raw
      | Err _ => None
      end
  | _ => None
  end.

Definition decoding_as_specified (env : environment) (memory_stream : value)
    (encoding : pystr) : result pystr :=
  match memory_stream with
  | VBytes b => bytes_decode env b encoding
  | VByteArray b => bytes_decode env b encoding
  | _ =>
      match validated_base64 memory_stream with
      | Some raw => bytes_decode env raw encoding
      | None =>
          rbind (json_dumps memory_stream) (fun text =>
          rbind (str_encode env text encoding) (fun raw =>
          bytes_decode env raw encoding))
      end
  end.

(** ** Vocabulary of the specification *)

(** Is the memory stream neither bytes nor text? *)
Definition is_structured (memory_stream : value) : bool :=
  match memory_stream with
  | VBytes _ | VByteArray _ | VStr _ => false
  | _ => true
  end.

(** Letters and digits of ASCII. *)
Definition alphanumeric (c : N) : bool :=
  in_range 48 57 c || in_range 65 90 c || in_range 97 122 c.

(** The text the decoder is expected to produce, case by case: bytes
    decoded with the encoding; base64 text decoded to bytes and then with the
    encoding; other text encoded and decoded; every other value serialised as
    JSON, encoded and decoded. *)
Inductive expected_text (env : environment) (encoding : pystr) : value -> pystr -> Prop :=
| expected_bytes (b : bytes) (text : pystr) :
    bytes_decode env b encoding = Ok text ->
    expected_text env encoding (VBytes b) text
| expected_bytearray (b : bytes) (text : pystr) :
    bytes_decode env b encoding = Ok text ->
    expected_text env encoding (VByteArray b) text
| expected_base64 (s : pystr) (raw : bytes) (text : pystr) :
    b64decode_validate s = Ok raw ->
    bytes_decode env raw encoding = Ok text ->
    expected_text env encoding (VStr s) text
| expected_plain (s : pystr) (e : exn) (raw : bytes) (text : pystr) :
    b64decode_validate s = Err e ->
    str_encode env s encoding = Ok raw ->
    bytes_decode env raw encoding = Ok text ->
    expected_text env encoding (VStr s) text
| expected_json (v : value) (json : pystr) (raw : bytes) (text : pystr) :
    is_structured v = true ->
    json_dumps v = Ok json ->
    str_encode env json encoding = Ok raw ->
    bytes_decode env raw encoding = Ok text ->
    expected_text env encoding v text.

(** The objects on which a [getSystem] operation is looked for: the client
    and what its attributes [system], [systems] and [console] hold, unless
    that is [None]. *)
Definition reachable (client obj : value) : Prop :=
  obj = client \/
  exists attr_name,
    In attr_name nested_names /\ lookup_attr client attr_name = Some obj /\ obj <> VNone.

(** [obj] has the callable [method] under one of the two method names. *)
Definition exposes_get_system (obj method : value) : Prop :=
  exists name,
    In name method_names /\ lookup_attr obj name = Some method /\ callable method = true.

(** The payload holds [v] under a supported attribute name or, when it is a
    mapping, under a supported key. *)
Definition exposes_field (system_payload v : value) : Prop :=
  (exists attr_name,
      In attr_name attr_names /\ lookup_attr system_payload attr_name = Some v) \/
  (exists items key,
      dict_items system_payload = Some items /\ In key key_names /\
      assoc_key key items = Some v).

(** The process ends with a non-zero status and the given message on the
    standard error stream, having printed nothing. *)
Definition ends_with_message (m : run Z) (message : string) : Prop :=
  outcome m = Err (SystemExit (ExitStr message)) /\
  exit_status (outcome m) <> 0%Z /\
  diagnostic (outcome m) = message /\
  message <> EmptyString /\
  stdout (trace m) = [].

(** The text a run gets to print, or the failure that ends it first. *)
Definition decoded_text (env : environment) (argv : list pystr) : result pystr :=
  rbind (parse_args argv) (fun args =>
  rbind (outcome (_import_client env)) (fun client_module =>
  rbind (outcome (_create_client env client_module (base_url args) (api_key args)))
        (fun client =>
  rbind (outcome (_call_get_system env client)) (fun system_payload =>
  rbind (_extract_memory_stream system_payload) (fun memory_stream =>
  _decode_memory_stream env memory_stream (encoding args)))))).

(** The option string of each declared flag. *)
Definition flag (d : dest) : pystr :=
  match d with
  | BaseUrl => lit "--base-url"
  | ApiKey => lit "--api-key"
  | Encoding => lit "--encoding"
  end.


(** ** Reading a trace *)



Definition is_call (e : event) : bool :=
  match e with
  | Called _ _ _ => true
  | _ => false
  end.



(** A run that only calls into the library, at most [n] times. *)
Definition calls_only {A : Type} (n : nat) (m : run A) : Prop :=
  forallb is_call (trace m) = true /\ (length (trace m) <= n)%nat.

(** ** A small client library, for examples

    [demo_env module system_payload]: importing the library binds [module]
    ([None] stands for a missing dependency), callable 0 returns
    [system_payload], and the codecs are the standard ones.  [demo_module]
    has callable 0 as its [getSystem]. *)

Definition demo_module : value :=
  VObj [("getSystem"%string, VObj [] (Some 0%nat) None)] None None.

Definition demo_env (module : option value) (system_payload : value) : environment :=
  {| galactic_console_client := module;
     call_fn := fun f _ _ =>
                  match f with
                  | O => Ok system_payload
                  | S _ => Err TypeError
                  end;
     codecs := std_codecs |}.

(** A mapping that holds [memory] under the key [memory_stream]. *)
Definition demo_payload (memory : value) : value :=
  VDict [(lit "memory_stream", memory)].

(** ** Structural induction on objects *)

Section ValueInduction.

Variable P : value -> Prop.
Hypothesis P_none : P VNone.
Hypothesis P_bool : forall b, P (VBool b).
Hypothesis P_int : forall z, P (VInt z).
Hypothesis P_str : forall s, P (VStr s).
Hypothesis P_bytes : forall b, P (VBytes b).
Hypothesis P_bytearray : forall b, P (VByteArray b).
Hypothesis P_list : forall xs, Forall P xs -> P (VList xs).
Hypothesis P_dict : forall items, Forall (fun item => P (snd item)) items -> P (VDict items).
Hypothesis P_obj :
  forall attrs call items,
    Forall (fun attr => P (snd attr)) attrs ->
    match items with
    | Some items' => Forall (fun item => P (snd item)) items'
    | None => True
    end ->
    P (VObj attrs call items).


End ValueInduction.

(** ** Vocabulary of the further properties *)

(** A code point of Unicode; every character of a [str] is one. *)
Definition code_point (c : N) : bool := c <=? 0x10FFFF.

(** A character that may occur in base64 text: a digit of the alphabet or
    the padding character. *)
Definition base64_character (c : N) : bool :=
  match b64_digit c with
  | Some _ => true
  | None => c =? b64_pad
  end.

(** The names under which pattern 2 looks for an API class. *)
Definition api_names : list string := ["SystemApi"; "SystemsApi"; "DefaultApi"]%string.

(** The classification of one argument string that is not the separator. *)
Definition pattern_of (arg_string : pystr) : pystr * pattern :=
  match _parse_optional arg_string with
  | Optional act option_string explicit_arg =>
      (arg_string, POption act option_string explicit_arg)
  | _ => (arg_string, PArgument)
  end.

(** The first three characters of an option string ([-h] has two). *)
Definition leading (option_string : pystr) : pystr := firstn 3 option_string.

(** The attribute of the namespace an option stores into. *)
Definition field (d : dest) (ns : namespace) : option pystr :=
  match d with
  | BaseUrl => base_url ns
  | ApiKey => api_key ns
  | Encoding => Some (encoding ns)
  end.

(** A code point that UTF-8 can encode: not a surrogate. *)
Definition scalar (c : N) : bool := code_point c && negb (in_range 0xD800 0xDFFF c).

(** The lead byte [b] announces [n] continuation bytes, the first of them in
    the range from [lo] to [hi]. *)
Definition lead_is (b n lo hi : N) : bool :=
  match utf8_lead b with
  | Some (n', lo', hi') => (n' =? n) && (lo' =? lo) && (hi' =? hi)
  | None => false
  end.

(** The API keys a configuration object holds: the items of the mapping
    under its attribute [api_key], if there is one. *)
Definition api_keys (configuration : value) : list (pystr * value) :=
  match lookup_attr configuration "api_key" with
  | Some keys =>
      match dict_items keys with
      | Some items => items
      | None => []
      end
  | None => []
  end.

(** An instance that accepts attribute assignment. *)
Definition is_object (v : value) : bool :=
  match v with
  | VObj _ _ _ => true
  | _ => false
  end.

(** [base64.b64encode], what a service applies to send bytes as text: the
    digit of the standard alphabet for a number below 64, and the encoding of
    the bytes three by three, the last group padded. *)
Definition b64_char (n : N) : N :=
  if n <? 26 then n + 65
  else if n <? 52 then n + 71
  else if n <? 62 then n - 4
  else if n =? 62 then 43
  else 47.

Fixpoint b64encode (raw : bytes) : pystr :=
  match raw with
  | [] => []
  | [x] =>
      let a := Byte.to_N x in
      [b64_char (a / 4); b64_char (a mod 4 * 16); b64_pad; b64_pad]
  | [x; y] =>
      let a := Byte.to_N x in
      let b := Byte.to_N y in
      [b64_char (a / 4); b64_char (a mod 4 * 16 + b / 16); b64_char (b mod 16 * 4);
       b64_pad]
  | x :: y :: z :: rest =>
      let a := Byte.to_N x in
      let b := Byte.to_N y in
      let c := Byte.to_N z in
      b64_char (a / 4) :: b64_char (a mod 4 * 16 + b / 16)
        :: b64_char (b mod 16 * 4 + c / 64) :: b64_char (c mod 64) :: b64encode rest
  end.

(** ** An OpenAPI-style client library, for examples

    The module has [Configuration] (callable 1), [ApiClient] (callable 2), a
    [SystemApi] that is [None] and a [DefaultApi] (callable 3) whose instances
    have [get_system] (callable 4). *)

Definition openapi_module : value :=
  VObj [("Configuration"%string, VObj [] (Some 1%nat) None);
        ("ApiClient"%string, VObj [] (Some 2%nat) None);
        ("SystemApi"%string, VNone);
        ("DefaultApi"%string, VObj [] (Some 3%nat) None)] None None.

Definition openapi_env : environment :=
  {| galactic_console_client := Some openapi_module;
     call_fn := fun f args _ =>
                  match f with
                  | 1%nat => Ok (VObj [] None None)
                  | 2%nat => Ok (VObj [("configuration"%string, hd VNone args)] None None)
                  | 3%nat => Ok (VObj [("get_system"%string, VObj [] (Some 4%nat) None);
                                       ("api_client"%string, hd VNone args)] None None)
                  | 4%nat => Ok (demo_payload (VStr (lit "aGk=")))
                  | _ => Err TypeError
                  end;
     codecs := std_codecs |}.

(** * Properties *)

(** ** Runs *)

Lemma outcome_bind {A B : Type} (m : run A) (k : A -> run B) :
  outcome (bind m k) = rbind (outcome m) (fun a => outcome (k a)).
Proof.
  destruct m as [t [a | e]]; simpl; [ | reflexivity ].
  destruct (k a); reflexivity.
Qed.

Lemma trace_bind {A B : Type} (m : run A) (k : A -> run B) :
  trace (bind m k) =
  trace m ++ match outcome m with
             | Ok a => trace (k a)
             | Err _ => []
             end.
Proof.
  destruct m as [t [a | e]]; simpl.
  - destruct (k a); reflexivity.
  - now rewrite app_nil_r.
Qed.

Lemma outcome_lift {A : Type} (r : result A) : outcome (lift r) = r.
Proof. reflexivity. Qed.

Lemma outcome_entering {A : Type} (s : stage) (m : run A) :
  outcome (entering s m) = outcome m.
Proof. unfold entering. rewrite outcome_bind. reflexivity. Qed.

Lemma trace_entering {A : Type} (s : stage) (m : run A) :
  trace (entering s m) = Enter s :: trace m.
Proof. unfold entering. rewrite trace_bind. reflexivity. Qed.

(** ** Decoding *)

Section Decoding.

Variable env : environment.
Variable encoding : pystr.

Lemma decode_or_replace_ok (raw : bytes) (text : pystr) :
  bytes_decode env raw encoding = Ok text ->
  decode_or_replace env raw encoding = Ok text.
Proof. unfold decode_or_replace. now intros ->. Qed.

Lemma decode_or_replace_fallback (raw : bytes) :
  bytes_decode env raw encoding = Err UnicodeDecodeError ->
  decode_or_replace env raw encoding = Ok (utf8_decode_replace raw).
Proof. unfold decode_or_replace. now intros ->. Qed.




Lemma b64decode_errors (s : pystr) (e : exn) :
  b64decode_validate s = Err e -> e = BinasciiError \/ e = ValueError.
Proof.
  unfold b64decode_validate, a2b_base64_strict.
  destruct (forallb _ s); [ | intros [= <-]; now right ].
  assert (L : forall t q l p st, a2b_loop t q l p st = Err e -> e = BinasciiError).
  { induction t as [ | c t IH]; intros q l p st; simpl.
    - destruct (q =? 0); [ discriminate | now intros [= <-] ].
    - destruct (c =? b64_pad).
      + destruct (2 <=? q); [ destruct (4 <=? q + (p + 1)) | ]; try apply IH.
        destruct t; [ discriminate | now intros [= <-] ].
      + destruct (b64_digit c); [ | now intros [= <-] ].
        destruct st; [ now intros [= <-] | ].
        destruct (q =? 0); [ apply IH | ].
        destruct (q =? 1); [ | destruct (q =? 2) ];
          match goal with
          | |- push_byte _ (a2b_loop ?t' ?q' ?l' ?p' ?s') = _ -> _ =>
              specialize (IH q' l' p' s');
              destruct (a2b_loop t' q' l' p' s'); simpl;
              [ discriminate | intros [= <-]; now apply IH ]
          end. }
  destruct s as [ | c s']; [ intros H; left; exact (L _ _ _ _ _ H) | ].
  destruct (c =? b64_pad); [ intros [= <-]; now left | ].
  intros H; left; exact (L _ _ _ _ _ H).
Qed.

Lemma raw_bytes_of_text (s : pystr) :
  raw_bytes_of env (VStr s) encoding =
  match b64decode_validate s with
  | Ok raw => Ok raw
  | Err _ => str_encode env s encoding
  end.
Proof.
  simpl. destruct (b64decode_validate s) as [raw | e] eqn:B; [ reflexivity | ].
  destruct (b64decode_errors _ _ B) as [-> | ->]; reflexivity.
Qed.

Lemma raw_bytes_of_structured (memory_stream : value) :
  is_structured memory_stream = true ->
  raw_bytes_of env memory_stream encoding =
  rbind (json_dumps memory_stream) (fun text => str_encode env text encoding).
Proof. destruct memory_stream; simpl; intros H; try reflexivity; discriminate. Qed.

End Decoding.

(** The replacement decoder yields at most one character per byte. *)
Lemma utf8_scan_length (n : nat) :
  forall bs : bytes, (length bs <= n)%nat -> (length (utf8_scan bs) <= length bs)%nat.
Proof.
  induction n as [ | n IH]; intros bs Hn.
  - destruct bs; simpl in *; [ lia | lia ].
  - destruct bs as [ | b0 rest]; [ simpl; lia | ].
    assert (Hrest : (length (utf8_scan rest) <= length rest)%nat)
      by (apply IH; simpl in Hn; lia).
    cbn [utf8_scan].
    destruct (Byte.to_N b0 <? 0x80); [ simpl; lia | ].
    destruct (utf8_lead (Byte.to_N b0)) as [[[k lo] hi] | ]; [ | simpl; lia ].
    destruct rest as [ | b1 r1]; [ simpl; lia | ].
    assert (Hr1 : (length (utf8_scan r1) <= length r1)%nat)
      by (apply IH; simpl in Hn; lia).
    destruct (negb (in_range lo hi (Byte.to_N b1))); [ simpl in *; lia | ].
    destruct (k =? 1); [ simpl; lia | ].
    destruct r1 as [ | b2 r2]; [ simpl; lia | ].
    assert (Hr2 : (length (utf8_scan r2) <= length r2)%nat)
      by (apply IH; simpl in Hn; lia).
    destruct (negb (is_continuation (Byte.to_N b2))); [ simpl in *; lia | ].
    destruct (k =? 2); [ simpl; lia | ].
    destruct r2 as [ | b3 r3]; [ simpl; lia | ].
    assert (Hr3 : (length (utf8_scan r3) <= length r3)%nat)
      by (apply IH; simpl in Hn; lia).
    destruct (negb (is_continuation (Byte.to_N b3))); simpl in *; lia.
Qed.

Lemma utf8_decode_replace_length (bs : bytes) :
  (length (utf8_decode_replace bs) <= length bs)%nat.
Proof.
  unfold utf8_decode_replace. rewrite length_map.
  now apply (utf8_scan_length (length bs)).
Qed.

Lemma utf8_strict_length (items : list (option N)) (text : pystr) :
  utf8_strict items = Some text -> length text = length items.
Proof.
  revert text. induction items as [ | [c | ] items IH]; intros text; simpl.
  - now intros [= <-].
  - destruct (utf8_strict items) as [t | ]; simpl; [ | discriminate ].
    intros [= <-]. simpl. now rewrite (IH t).
  - discriminate.
Qed.

Lemma utf8_decode_length (bs : bytes) (text : pystr) :
  utf8_decode bs = Some text -> (length text <= length bs)%nat.
Proof.
  unfold utf8_decode. intros H. rewrite (utf8_strict_length _ _ H).
  now apply (utf8_scan_length (length bs)).
Qed.

(** Every letter and digit is a base64 digit, and is not the padding. *)
Lemma alphanumeric_digit (c : N) :
  alphanumeric c = true ->
  (exists d, b64_digit c = Some d) /\ (c =? b64_pad) = false /\ (c <? 128) = true.
Proof.
  unfold alphanumeric, in_range, b64_digit, b64_pad. intros H.
  repeat split.
  - destruct ((65 <=? c) && (c <=? 90)); [ eauto | ].
    destruct ((97 <=? c) && (c <=? 122)); [ eauto | ].
    destruct ((48 <=? c) && (c <=? 57)); [ eauto | ].
    discriminate.
  - apply N.eqb_neq. intros ->. discriminate.
  - apply N.ltb_lt.
    repeat match goal with
           | H : (_ || _) = true |- _ => apply orb_true_iff in H; destruct H
           | H : (_ && _) = true |- _ => apply andb_true_iff in H; destruct H
           | H : (_ <=? _) = true |- _ => apply N.leb_le in H
           end; lia.
Qed.

(** Four letters or digits always validate as base64, and give three bytes. *)
Lemma four_alphanumerics_validate (a b c d : N) :
  alphanumeric a = true -> alphanumeric b = true ->
  alphanumeric c = true -> alphanumeric d = true ->
  exists raw, b64decode_validate [a; b; c; d] = Ok raw /\ length raw = 3%nat.
Proof.
  intros Ha Hb Hc Hd.
  destruct (alphanumeric_digit a Ha) as ((da & Da) & Pa & La).
  destruct (alphanumeric_digit b Hb) as ((db & Db) & Pb & Lb).
  destruct (alphanumeric_digit c Hc) as ((dc & Dc) & Pc & Lc).
  destruct (alphanumeric_digit d Hd) as ((dd & Dd) & Pd & Ld).
  unfold b64decode_validate, a2b_base64_strict.
  cbn [forallb]. rewrite La, Lb, Lc, Ld. cbn [andb].
  rewrite Pa. cbn [a2b_loop].
  rewrite Pa, Pb, Pc, Pd, Da, Db, Dc, Dd. cbn.
  eexists. split; reflexivity.
Qed.

(** C1 (amended).  Whenever the decoding it names succeeds,
    [_decode_memory_stream] returns: for [bytes] and [bytearray], the bytes
    decoded with the given encoding; for a string that validates as base64,
    the base64-decoded bytes decoded with the encoding; for a string that
    does not validate, the string itself encoded and decoded with the
    encoding; for every other JSON-serialisable value, its JSON text encoded
    and decoded with the encoding. *)
Theorem decode_memory_stream_expected (env : environment) (encoding : pystr)
    (memory_stream : value) (text : pystr) :
  expected_text env encoding memory_stream text ->
  _decode_memory_stream env memory_stream encoding = Ok text.
Proof.
  intros H. unfold _decode_memory_stream.
  destruct H as [b text Hd | b text Hd | s raw text Hb Hd | s e raw text Hb He Hd
                | v json raw text Hv Hj He Hd].
  - simpl. now apply decode_or_replace_ok.
  - simpl. now apply decode_or_replace_ok.
  - rewrite raw_bytes_of_text, Hb. simpl. now apply decode_or_replace_ok.
  - rewrite raw_bytes_of_text, Hb, He. simpl. now apply decode_or_replace_ok.
  - rewrite (raw_bytes_of_structured _ _ _ Hv), Hj. simpl. rewrite He. simpl.
    now apply decode_or_replace_ok.
Qed.

(** [decode_memory_stream_expected] at work on an example. *)
Lemma decode_memory_stream_expected_witness :
  expected_text (demo_env None VNone) (lit "utf-8")
                (VList [VInt 1; VStr (lit "a"); VNone])
                (lit "[1, " ++ [quote_char; 97; quote_char] ++ lit ", null]") /\
  _decode_memory_stream (demo_env None VNone)
                        (VList [VInt 1; VStr (lit "a"); VNone]) (lit "utf-8")
  = Ok (lit "[1, " ++ [quote_char; 97; quote_char] ++ lit ", null]").
Proof.
  assert (E : expected_text (demo_env None VNone) (lit "utf-8")
                (VList [VInt 1; VStr (lit "a"); VNone])
                (lit "[1, " ++ [quote_char; 97; quote_char] ++ lit ", null]")).
  { eapply expected_json; reflexivity. }
  split; [ exact E | ].
  exact (decode_memory_stream_expected _ _ _ _ E).
Defined.

(** C1, as stated, fails on text that is not base64: the text [hello!] is
    decoded to itself, and not to its JSON serialisation (which carries
    quotation marks). *)
Lemma decode_memory_stream_plain_text_is_not_json :
  _decode_memory_stream (demo_env None VNone) (VStr (lit "hello!")) (lit "utf-8")
  = Ok (lit "hello!") /\
  decoding_as_specified (demo_env None VNone) (VStr (lit "hello!")) (lit "utf-8")
  = Ok (quote_char :: lit "hello!" ++ [quote_char]) /\
  _decode_memory_stream (demo_env None VNone) (VStr (lit "hello!")) (lit "utf-8")
  <> decoding_as_specified (demo_env None VNone) (VStr (lit "hello!")) (lit "utf-8").
Proof.
  repeat split; try reflexivity.
  intros H. vm_compute in H. discriminate H.
Qed.

(** C3.  When the bytes obtained from the memory stream do not decode with
    the given encoding, the result is the same bytes decoded as UTF-8 with
    replacement characters; the function does not fail. *)
Theorem decode_error_falls_back_to_utf8 (env : environment) (memory_stream : value)
    (encoding : pystr) (raw_bytes : bytes) :
  raw_bytes_of env memory_stream encoding = Ok raw_bytes ->
  bytes_decode env raw_bytes encoding = Err UnicodeDecodeError ->
  _decode_memory_stream env memory_stream encoding = Ok (utf8_decode_replace raw_bytes).
Proof.
  intros Hraw Hdec. unfold _decode_memory_stream. rewrite Hraw. simpl.
  now apply decode_or_replace_fallback.
Qed.

(** [decode_error_falls_back_to_utf8] at work on an example. *)
Lemma decode_error_falls_back_to_utf8_witness :
  _decode_memory_stream (demo_env None VNone) (VBytes [x63; xe9]) (lit "ascii")
  = Ok [99; replacement_character].
Proof.
  apply (decode_error_falls_back_to_utf8 (demo_env None VNone)
           (VBytes [x63; xe9]) (lit "ascii") [x63; xe9]); reflexivity.
Defined.

(** C9.  A string that validates as base64 is always decoded as base64, never
    kept as text: four letters or digits always validate, and under UTF-8
    what is printed for them is never the four characters themselves. *)
Theorem base64_text_is_decoded_not_kept (env : environment) (encoding : pystr) :
  (forall s raw,
      b64decode_validate s = Ok raw ->
      _decode_memory_stream env (VStr s) encoding = decode_or_replace env raw encoding) /\
  (forall a b c d,
      alphanumeric a = true -> alphanumeric b = true ->
      alphanumeric c = true -> alphanumeric d = true ->
      exists raw,
        b64decode_validate [a; b; c; d] = Ok raw /\ length raw = 3%nat /\
        (codecs env encoding = Some utf8_codec ->
         exists text,
           _decode_memory_stream env (VStr [a; b; c; d]) encoding = Ok text /\
           text <> [a; b; c; d])).
Proof.
  assert (G : forall s raw,
             b64decode_validate s = Ok raw ->
             _decode_memory_stream env (VStr s) encoding
             = decode_or_replace env raw encoding).
  { intros s raw H. unfold _decode_memory_stream.
    rewrite raw_bytes_of_text, H. reflexivity. }
  split; [ exact G | ].
  intros a b c d Ha Hb Hc Hd.
  destruct (four_alphanumerics_validate a b c d Ha Hb Hc Hd) as (raw & Hraw & Hlen).
  exists raw. repeat split; [ exact Hraw | exact Hlen | ].
  intros Hcodec. rewrite (G _ _ Hraw).
  unfold decode_or_replace, bytes_decode. rewrite Hcodec. simpl.
  destruct (utf8_decode raw) as [text | ] eqn:D.
  - exists text. split; [ reflexivity | ].
    intros ->. apply utf8_decode_length in D. simpl in D. lia.
  - exists (utf8_decode_replace raw). split; [ reflexivity | ].
    intros E. pose proof (utf8_decode_replace_length raw) as L.
    rewrite E in L. simpl in L. lia.
Qed.

(** [base64_text_is_decoded_not_kept] at work on an example. *)
Lemma base64_text_is_decoded_not_kept_witness :
  _decode_memory_stream (demo_env None VNone) (VStr (lit "abcd")) (lit "utf-8")
  = Ok [105; replacement_character; 29] /\
  exists text,
    _decode_memory_stream (demo_env None VNone) (VStr (lit "abcd")) (lit "utf-8") = Ok text /\
    text <> lit "abcd".
Proof.
  destruct (base64_text_is_decoded_not_kept (demo_env None VNone) (lit "utf-8"))
    as [General Readable].
  split.
  - rewrite (General (lit "abcd") [x69; xb7; x1d]); reflexivity.
  - destruct (Readable 97 98 99 100) as (raw & _ & _ & Differs);
      try reflexivity.
    apply Differs. reflexivity.
Defined.

(** ** What the helpers do to the outside *)

Lemma calls_only_lift {A : Type} (r : result A) (n : nat) : calls_only n (lift r).
Proof. split; simpl; [ reflexivity | lia ]. Qed.

Lemma calls_only_ret {A : Type} (a : A) (n : nat) : calls_only n (ret a).
Proof. split; simpl; [ reflexivity | lia ]. Qed.

Lemma calls_only_raise {A : Type} (e : exn) (n : nat) : calls_only n (@raise A e).
Proof. split; simpl; [ reflexivity | lia ]. Qed.

Lemma calls_only_call (env : environment) (f : value) (args : list value)
    (kwargs : list (string * value)) (n : nat) :
  calls_only (S n) (call env f args kwargs).
Proof.
  unfold call. destruct f as [ | | | | | | | | attrs [id | ] items];
    split; simpl; try reflexivity; lia.
Qed.

Lemma calls_only_bind {A B : Type} (m : run A) (k : A -> run B) (n n' : nat) :
  calls_only n m -> (forall a, calls_only n' (k a)) -> calls_only (n + n') (bind m k).
Proof.
  intros [Hm Lm] Hk. unfold calls_only. rewrite trace_bind.
  rewrite forallb_app, length_app, Hm.
  destruct (outcome m) as [a | e].
  - destruct (Hk a) as [Ha La]. rewrite Ha. split; [ reflexivity | lia ].
  - split; simpl; [ reflexivity | lia ].
Qed.

Lemma create_client_calls (env : environment) (client_module : value)
    (base_url api_key : option pystr) :
  calls_only 3 (_create_client env client_module base_url api_key).
Proof.
  unfold _create_client.
  destruct (hasattr client_module "GalacticConsoleClient").
  - apply (calls_only_bind _ _ 0 3); [ apply calls_only_lift | ].
    intros ctor. apply calls_only_call.
  - destruct (hasattr client_module "Configuration" && hasattr client_module "ApiClient");
      [ | apply calls_only_ret ].
    apply (calls_only_bind _ _ 0 3); [ apply calls_only_lift | intros ctor ].
    apply (calls_only_bind _ _ 1 2); [ apply calls_only_call | intros configuration ].
    apply (calls_only_bind _ _ 0 2); [ apply calls_only_lift | intros configured ].
    apply (calls_only_bind _ _ 0 2); [ apply calls_only_lift | intros ctor' ].
    apply (calls_only_bind _ _ 1 1); [ apply calls_only_call | intros api_client ].
    destruct (first_api client_module _); [ apply calls_only_call | apply calls_only_ret ].
Qed.

Lemma call_get_system_calls (env : environment) (client : value) :
  calls_only 1 (_call_get_system env client).
Proof.
  unfold _call_get_system.
  destruct (locate_get_system _); [ apply calls_only_call | apply calls_only_raise ].
Qed.

Lemma import_client_trace (env : environment) :
  exists found, trace (_import_client env) = [Imported found].
Proof.
  unfold _import_client. destruct (galactic_console_client env); eexists; reflexivity.
Qed.

Lemma calls_only_stdout {A : Type} (n : nat) (m : run A) :
  calls_only n m -> stdout (trace m) = [].
Proof.
  intros [H _]. induction (trace m) as [ | e t IH]; [ reflexivity | ].
  simpl in H. apply andb_true_iff in H. destruct H as [He Ht].
  destruct e; try discriminate. simpl. now apply IH.
Qed.


Lemma stdout_app (t t' : list event) : stdout (t ++ t') = stdout t ++ stdout t'.
Proof. unfold stdout. now rewrite flat_map_app. Qed.


(** ** [main] *)

(** The result of [main]: the stages in sequence, the first failure ending
    the run. *)
Lemma main_outcome (env : environment) (argv : list pystr) :
  outcome (main env argv) =
  rbind (parse_args argv) (fun args =>
  rbind (outcome (_import_client env)) (fun client_module =>
  rbind (outcome (_create_client env client_module (base_url args) (api_key args)))
        (fun client =>
  rbind (outcome (_call_get_system env client)) (fun system_payload =>
  rbind (_extract_memory_stream system_payload) (fun memory_stream =>
  rbind (_decode_memory_stream env memory_stream (encoding args)) (fun _ =>
  Ok 0%Z)))))).
Proof.
  unfold main.
  rewrite outcome_bind, outcome_lift.
  destruct (parse_args argv) as [args | e]; [ cbn [rbind]; cbv beta | reflexivity ].
  rewrite outcome_bind, outcome_entering.
  destruct (outcome (_import_client env)) as [client_module | e]; [ cbn [rbind]; cbv beta | reflexivity ].
  rewrite outcome_bind, outcome_entering.
  destruct (outcome (_create_client env client_module (base_url args) (api_key args)))
    as [client | e]; [ cbn [rbind]; cbv beta | reflexivity ].
  rewrite outcome_bind, outcome_entering.
  destruct (outcome (_call_get_system env client)) as [system_payload | e];
    [ cbn [rbind]; cbv beta | reflexivity ].
  rewrite outcome_bind, outcome_entering, outcome_lift.
  destruct (_extract_memory_stream system_payload) as [memory_stream | e];
    [ cbn [rbind]; cbv beta | reflexivity ].
  rewrite outcome_bind, outcome_entering, outcome_lift.
  destruct (_decode_memory_stream env memory_stream (encoding args)) as [decoded | e];
    reflexivity.
Qed.

(** The trace of [main], stage by stage. *)
Lemma main_trace (env : environment) (argv : list pystr) :
  trace (main env argv) =
  match parse_args argv with
  | Err _ => []
  | Ok args =>
    Enter Resolve :: trace (_import_client env) ++
    match outcome (_import_client env) with
    | Err _ => []
    | Ok client_module =>
      let create := _create_client env client_module (base_url args) (api_key args) in
      Enter Instantiate :: trace create ++
      match outcome create with
      | Err _ => []
      | Ok client =>
        Enter Invoke :: trace (_call_get_system env client) ++
        match outcome (_call_get_system env client) with
        | Err _ => []
        | Ok system_payload =>
          Enter Extract :: [] ++
          match _extract_memory_stream system_payload with
          | Err _ => []
          | Ok memory_stream =>
            Enter Decode :: [] ++
            match _decode_memory_stream env memory_stream (encoding args) with
            | Err _ => []
            | Ok decoded => Enter Print :: [Printed decoded] ++ []
            end
          end
        end
      end
    end
  end.
Proof.
  unfold main.
  rewrite trace_bind, outcome_lift.
  destruct (parse_args argv) as [args | e]; [ cbv beta | reflexivity ].
  rewrite trace_bind, trace_entering, outcome_entering. cbn [app]. f_equal. f_equal.
  destruct (outcome (_import_client env)) as [client_module | e]; [ | reflexivity ].
  rewrite trace_bind, trace_entering, outcome_entering. cbn [app]. f_equal. f_equal.
  destruct (outcome (_create_client env client_module (base_url args) (api_key args)))
    as [client | e]; [ | reflexivity ].
  rewrite trace_bind, trace_entering, outcome_entering. cbn [app]. f_equal. f_equal.
  destruct (outcome (_call_get_system env client)) as [system_payload | e];
    [ | reflexivity ].
  rewrite trace_bind, trace_entering, outcome_entering, outcome_lift. cbn [app]. f_equal.
  destruct (_extract_memory_stream system_payload) as [memory_stream | e];
    [ | reflexivity ].
  rewrite trace_bind, trace_entering, outcome_entering, outcome_lift. cbn [app]. f_equal.
  destruct (_decode_memory_stream env memory_stream (encoding args)) as [decoded | e];
    reflexivity.
Qed.

(** ** Failures of the decoder *)




(** ** Locating the operation and the field *)

Lemma is_none_false (v : value) : is_none v = false <-> v <> VNone.
Proof. destruct v; simpl; split; intros H; try discriminate; try reflexivity; now auto. Qed.

Lemma callable_getattr_default (obj : value) (name : string) :
  callable (getattr_default obj name VNone) = true ->
  lookup_attr obj name = Some (getattr_default obj name VNone).
Proof.
  unfold getattr_default. destruct (lookup_attr obj name); [ reflexivity | discriminate ].
Qed.

Lemma find_method_some (obj : value) (names : list string) (method : value) :
  find_method obj names = Some method ->
  exists name,
    In name names /\ lookup_attr obj name = Some method /\ callable method = true.
Proof.
  induction names as [ | name names IH]; simpl; [ discriminate | ].
  destruct (callable (getattr_default obj name VNone)) eqn:C.
  - intros [= <-]. exists name. repeat split; auto using callable_getattr_default.
  - intros H. destruct (IH H) as (name' & Hin & Hrest). exists name'. auto.
Qed.

Lemma find_method_none (obj : value) (names : list string) :
  find_method obj names = None ->
  forall name method,
    In name names -> lookup_attr obj name = Some method -> callable method = false.
Proof.
  induction names as [ | name names IH]; simpl; [ now intros _ ? ? [] | ].
  destruct (callable (getattr_default obj name VNone)) eqn:C; [ discriminate | ].
  intros H name' method [<- | Hin] L.
  - unfold getattr_default in C. now rewrite L in C.
  - now apply (IH H name').
Qed.

Lemma candidate_objects_reachable (client obj : value) :
  In obj (candidate_objects client) <-> reachable client obj.
Proof.
  unfold candidate_objects, reachable. split.
  - intros H. apply in_inv in H. destruct H as [<- | H]; [ now left | right ].
    apply in_flat_map in H. destruct H as (attr_name & Hin & Hobj).
    exists attr_name. unfold getattr_default in Hobj.
    destruct (lookup_attr client attr_name) as [nested | ]; [ | now destruct Hobj ].
    destruct (is_none nested) eqn:N; [ now destruct Hobj | ].
    destruct Hobj as [<- | []]. repeat split; auto. now apply is_none_false.
  - intros [-> | (attr_name & Hin & L & Hnone)]; [ now left | right ].
    apply in_flat_map. exists attr_name. split; [ exact Hin | ].
    unfold getattr_default. rewrite L.
    apply is_none_false in Hnone. rewrite Hnone. now left.
Qed.

Lemma locate_get_system_some (objs : list value) (method : value) :
  locate_get_system objs = Some method ->
  exists obj, In obj objs /\ exposes_get_system obj method.
Proof.
  induction objs as [ | obj objs IH]; cbn [locate_get_system In]; [ discriminate | ].
  destruct (find_method obj method_names) as [m | ] eqn:F.
  - intros [= <-]. exists obj. split; [ now left | ].
    exact (find_method_some _ _ _ F).
  - intros H. destruct (IH H) as (obj' & Hin & Hexp). exists obj'. auto.
Qed.

Lemma locate_get_system_none (objs : list value) :
  locate_get_system objs = None ->
  forall obj method, In obj objs -> ~ exposes_get_system obj method.
Proof.
  induction objs as [ | obj objs IH]; cbn [locate_get_system In];
    [ now intros _ ? ? [] | ].
  destruct (find_method obj method_names) as [m | ] eqn:F; [ discriminate | ].
  intros H obj' method [<- | Hin].
  - intros (name & Hname & L & C).
    rewrite (find_method_none _ _ F name method Hname L) in C. discriminate.
  - now apply IH.
Qed.

Lemma first_attr_some (obj : value) (names : list string) (v : value) :
  first_attr obj names = Some v ->
  exists name, In name names /\ lookup_attr obj name = Some v.
Proof.
  induction names as [ | name names IH]; simpl; [ discriminate | ].
  destruct (lookup_attr obj name) as [w | ] eqn:L.
  - intros [= <-]. exists name. auto.
  - intros H. destruct (IH H) as (name' & Hin & L'). exists name'. auto.
Qed.

Lemma first_attr_none (obj : value) (names : list string) :
  first_attr obj names = None ->
  forall name, In name names -> lookup_attr obj name = None.
Proof.
  induction names as [ | name names IH]; simpl; [ now intros _ ? [] | ].
  destruct (lookup_attr obj name) as [w | ] eqn:L; [ discriminate | ].
  intros H name' [<- | Hin]; auto.
Qed.

Lemma first_key_some (items : list (pystr * value)) (keys : list pystr) (v : value) :
  first_key items keys = Some v ->
  exists key, In key keys /\ assoc_key key items = Some v.
Proof.
  induction keys as [ | key keys IH]; simpl; [ discriminate | ].
  destruct (assoc_key key items) as [w | ] eqn:L.
  - intros [= <-]. exists key. auto.
  - intros H. destruct (IH H) as (key' & Hin & L'). exists key'. auto.
Qed.

Lemma first_key_none (items : list (pystr * value)) (keys : list pystr) :
  first_key items keys = None ->
  forall key, In key keys -> assoc_key key items = None.
Proof.
  induction keys as [ | key keys IH]; simpl; [ now intros _ ? [] | ].
  destruct (assoc_key key items) as [w | ] eqn:L; [ discriminate | ].
  intros H key' [<- | Hin]; auto.
Qed.

(** The search stops at the first name that is bound. *)
Lemma first_attr_precedence (obj : value) (before after : list string)
    (name : string) (v : value) :
  (forall earlier, In earlier before -> lookup_attr obj earlier = None) ->
  lookup_attr obj name = Some v ->
  first_attr obj (before ++ name :: after) = Some v.
Proof.
  intros Hbefore L. induction before as [ | b before IH]; simpl.
  - now rewrite L.
  - rewrite (Hbefore b) by now left. apply IH. intros earlier Hin.
    apply Hbefore. now right.
Qed.

Lemma first_key_precedence (items : list (pystr * value)) (before after : list pystr)
    (key : pystr) (v : value) :
  (forall earlier, In earlier before -> assoc_key earlier items = None) ->
  assoc_key key items = Some v ->
  first_key items (before ++ key :: after) = Some v.
Proof.
  intros Hbefore L. induction before as [ | b before IH]; simpl.
  - now rewrite L.
  - rewrite (Hbefore b) by now left. apply IH. intros earlier Hin.
    apply Hbefore. now right.
Qed.

Lemma extract_exposed (system_payload v : value) :
  _extract_memory_stream system_payload = Ok v -> exposes_field system_payload v.
Proof.
  unfold _extract_memory_stream, exposes_field.
  destruct (is_none system_payload); [ discriminate | ].
  destruct (first_attr system_payload attr_names) as [w | ] eqn:A.
  - intros [= <-]. left. exact (first_attr_some _ _ _ A).
  - destruct (dict_items system_payload) as [items | ]; [ | discriminate ].
    destruct (first_key items key_names) as [w | ] eqn:K; [ | discriminate ].
    intros [= <-]. right. exists items.
    destruct (first_key_some _ _ _ K) as (key & Hin & L). exists key. auto.
Qed.

Lemma extract_not_exposed (system_payload : value) (e : exn) :
  _extract_memory_stream system_payload = Err e ->
  e = SystemExit (ExitStr (if is_none system_payload then no_data else no_memory_stream)) /\
  forall v, ~ exposes_field system_payload v.
Proof.
  unfold _extract_memory_stream.
  destruct (is_none system_payload) eqn:N.
  - intros [= <-]. split; [ reflexivity | ].
    destruct system_payload; try discriminate N.
    intros v [(n & _ & L) | (items & key & D & _)]; discriminate.
  - destruct (first_attr system_payload attr_names) as [w | ] eqn:A; [ discriminate | ].
    destruct (dict_items system_payload) as [items | ] eqn:D.
    + destruct (first_key items key_names) as [w | ] eqn:K; [ discriminate | ].
      intros [= <-]. split; [ reflexivity | ].
      intros v [(n & Hin & L) | (items' & key & D' & Hin & L)].
      * rewrite (first_attr_none _ _ A n Hin) in L. discriminate.
      * rewrite D in D'. injection D' as <-.
        rewrite (first_key_none _ _ K key Hin) in L. discriminate.
    + intros [= <-]. split; [ reflexivity | ].
      intros v [(n & Hin & L) | (items' & key & D' & _)].
      * rewrite (first_attr_none _ _ A n Hin) in L. discriminate.
      * rewrite D in D'. discriminate.
Qed.

(** ** Output and exit status of [main] *)

Lemma main_outcome_decoded (env : environment) (argv : list pystr) :
  outcome (main env argv) = rbind (decoded_text env argv) (fun _ => Ok 0%Z).
Proof.
  rewrite main_outcome. unfold decoded_text.
  destruct (parse_args argv) as [args | e]; [ cbn [rbind] | reflexivity ].
  destruct (outcome (_import_client env)) as [client_module | e];
    [ cbn [rbind] | reflexivity ].
  destruct (outcome (_create_client env client_module (base_url args) (api_key args)))
    as [client | e]; [ cbn [rbind] | reflexivity ].
  destruct (outcome (_call_get_system env client)) as [system_payload | e];
    [ cbn [rbind] | reflexivity ].
  destruct (_extract_memory_stream system_payload) as [memory_stream | e]; reflexivity.
Qed.

Lemma stdout_enter (s : stage) (t : list event) : stdout (Enter s :: t) = stdout t.
Proof. reflexivity. Qed.

Lemma main_stdout (env : environment) (argv : list pystr) :
  stdout (trace (main env argv)) =
  match decoded_text env argv with
  | Ok decoded => [decoded]
  | Err _ => []
  end.
Proof.
  rewrite main_trace. unfold decoded_text.
  destruct (parse_args argv) as [args | e]; [ cbn [rbind] | reflexivity ].
  rewrite stdout_enter, stdout_app.
  destruct (import_client_trace env) as (found & ->). cbn [stdout flat_map app].
  destruct (outcome (_import_client env)) as [client_module | e];
    [ cbn [rbind] | reflexivity ].
  cbv zeta. rewrite stdout_enter, stdout_app.
  rewrite (calls_only_stdout 3) by apply create_client_calls. cbn [app].
  destruct (outcome (_create_client env client_module (base_url args) (api_key args)))
    as [client | e]; [ cbn [rbind] | reflexivity ].
  rewrite stdout_enter, stdout_app.
  rewrite (calls_only_stdout 1) by apply call_get_system_calls. cbn [app].
  destruct (outcome (_call_get_system env client)) as [system_payload | e];
    [ cbn [rbind] | reflexivity ].
  destruct (_extract_memory_stream system_payload) as [memory_stream | e];
    [ cbn [rbind] | reflexivity ].
  destruct (_decode_memory_stream env memory_stream (encoding args)); reflexivity.
Qed.

(** A failure at any stage ends [main] with that failure, nothing printed. *)
Lemma main_failure (env : environment) (argv : list pystr) (e : exn) :
  decoded_text env argv = Err e ->
  outcome (main env argv) = Err e /\ stdout (trace (main env argv)) = [].
Proof.
  intros H. rewrite main_outcome_decoded, main_stdout, H. split; reflexivity.
Qed.

Lemma main_exit_message (env : environment) (argv : list pystr) (message : string) :
  decoded_text env argv = Err (SystemExit (ExitStr message)) ->
  message <> EmptyString ->
  ends_with_message (main env argv) message.
Proof.
  intros H Hmsg. destruct (main_failure _ _ _ H) as [Hout Hstd].
  unfold ends_with_message. rewrite Hout, Hstd.
  repeat split; try reflexivity; [ discriminate | exact Hmsg ].
Qed.

Lemma import_client_missing (env : environment) :
  galactic_console_client env = None ->
  outcome (_import_client env) = Err (SystemExit (ExitStr missing_dependency)).
Proof. unfold _import_client. now intros ->. Qed.

Lemma import_client_found (env : environment) (module : value) :
  galactic_console_client env = Some module ->
  outcome (_import_client env) = Ok module.
Proof. unfold _import_client. now intros ->. Qed.

Lemma call_get_system_missing (env : environment) (client : value) :
  (forall obj method, reachable client obj -> ~ exposes_get_system obj method) ->
  _call_get_system env client = raise (SystemExit (ExitStr no_get_system)).
Proof.
  intros H. unfold _call_get_system.
  destruct (locate_get_system (candidate_objects client)) as [method | ] eqn:L;
    [ | reflexivity ].
  destruct (locate_get_system_some _ _ L) as (obj & Hin & Hexp).
  apply candidate_objects_reachable in Hin. now destruct (H obj method Hin).
Qed.

Lemma call_get_system_found (env : environment) (client : value) :
  (exists obj method, reachable client obj /\ exposes_get_system obj method) ->
  exists obj attrs id items,
    reachable client obj /\
    exposes_get_system obj (VObj attrs (Some id) items) /\
    _call_get_system env client = ([Called id [] []], call_fn env id [] []).
Proof.
  intros (obj & method & Hreach & Hexp). unfold _call_get_system.
  destruct (locate_get_system (candidate_objects client)) as [found | ] eqn:L.
  - destruct (locate_get_system_some _ _ L) as (obj' & Hin & Hexp').
    apply candidate_objects_reachable in Hin.
    assert (C : callable found = true) by (destruct Hexp' as (? & ? & ? & C); exact C).
    destruct found as [ | | | | | | | | attrs [id | ] items]; try discriminate C.
    exists obj', attrs, id, items. repeat split; auto.
  - apply candidate_objects_reachable in Hreach.
    now destruct (locate_get_system_none _ L obj method Hreach).
Qed.

Lemma extract_missing (system_payload : value) :
  (forall v, ~ exposes_field system_payload v) ->
  _extract_memory_stream system_payload =
  Err (SystemExit (ExitStr (if is_none system_payload then no_data else no_memory_stream))).
Proof.
  intros H. destruct (_extract_memory_stream system_payload) as [v | e] eqn:E.
  - now destruct (H v (extract_exposed _ _ E)).
  - now destruct (extract_not_exposed _ _ E) as [-> _].
Qed.

Lemma extract_found (system_payload : value) :
  (exists v, exposes_field system_payload v) ->
  exists v, exposes_field system_payload v /\ _extract_memory_stream system_payload = Ok v.
Proof.
  intros (v & Hv). destruct (_extract_memory_stream system_payload) as [w | e] eqn:E.
  - exists w. split; [ exact (extract_exposed _ _ E) | reflexivity ].
  - destruct (extract_not_exposed _ _ E) as [_ Hno]. now destruct (Hno v).
Qed.

Lemma bind_lift_ok {A B : Type} (a : A) (k : A -> run B) : bind (lift (Ok a)) k = k a.
Proof. unfold bind, lift. now destruct (k a). Qed.

Lemma hasattr_lookup (obj : value) (name : string) (v : value) :
  lookup_attr obj name = Some v -> hasattr obj name = true.
Proof. unfold hasattr. now intros ->. Qed.

Lemma lookup_attr_not_none (obj : value) (name : string) (v : value) :
  lookup_attr obj name = Some v -> is_none obj = false.
Proof. destruct obj; simpl; try discriminate; reflexivity. Qed.

Lemma dict_items_not_none (obj : value) (items : list (pystr * value)) :
  dict_items obj = Some items -> is_none obj = false.
Proof. destruct obj; simpl; try discriminate; reflexivity. Qed.








(** ** The claims about [main] and its helpers *)



(** C4.  Once the command line is parsed, each of the three failures ends
    the process with a non-zero status and a message on the standard error
    stream: the library cannot be imported; no callable [getSystem] or
    [get_system] is found on the client or on what its attributes [system],
    [systems] and [console] hold; the payload has none of the memory-stream
    attributes and keys. *)
Theorem failure_cases_exit_with_message (env : environment) (argv : list pystr)
    (args : namespace) :
  parse_args argv = Ok args ->
  (galactic_console_client env = None ->
   ends_with_message (main env argv) missing_dependency) /\
  (forall client_module client,
      outcome (_import_client env) = Ok client_module ->
      outcome (_create_client env client_module (base_url args) (api_key args))
      = Ok client ->
      (forall obj method, reachable client obj -> ~ exposes_get_system obj method) ->
      ends_with_message (main env argv) no_get_system) /\
  (forall client_module client system_payload,
      outcome (_import_client env) = Ok client_module ->
      outcome (_create_client env client_module (base_url args) (api_key args))
      = Ok client ->
      outcome (_call_get_system env client) = Ok system_payload ->
      (forall v, ~ exposes_field system_payload v) ->
      ends_with_message (main env argv)
                        (if is_none system_payload then no_data else no_memory_stream)).
Proof.
  intros Hparse. split; [ | split ].
  - intros Hmissing. apply main_exit_message; [ | discriminate ].
    unfold decoded_text. rewrite Hparse; cbn [rbind].
    now rewrite (import_client_missing _ Hmissing).
  - intros client_module client Himport Hcreate Hnone.
    apply main_exit_message; [ | discriminate ].
    unfold decoded_text. rewrite Hparse; cbn [rbind]. rewrite Himport; cbn [rbind].
    rewrite Hcreate; cbn [rbind].
    now rewrite (call_get_system_missing _ _ Hnone).
  - intros client_module client system_payload Himport Hcreate Hcall Hnone.
    apply main_exit_message; [ | destruct (is_none system_payload); discriminate ].
    unfold decoded_text. rewrite Hparse; cbn [rbind]. rewrite Himport; cbn [rbind].
    rewrite Hcreate; cbn [rbind]. rewrite Hcall; cbn [rbind].
    now rewrite (extract_missing _ Hnone).
Qed.

(** [failure_cases_exit_with_message] at work on an example. *)
Lemma failure_cases_exit_with_message_witness :
  ends_with_message (main (demo_env None VNone) []) missing_dependency /\
  ends_with_message (main (demo_env (Some (VObj [] None None)) VNone) []) no_get_system /\
  ends_with_message (main (demo_env (Some demo_module) (VDict [])) []) no_memory_stream.
Proof.
  split; [ | split ].
  - now apply (failure_cases_exit_with_message (demo_env None VNone) [] default_namespace).
  - apply (failure_cases_exit_with_message
             (demo_env (Some (VObj [] None None)) VNone) [] default_namespace eq_refl)
      with (client_module := VObj [] None None) (client := VObj [] None None);
      try reflexivity.
    intros obj method [-> | (attr_name & _ & L & _)] (name & _ & M & _); discriminate.
  - apply (failure_cases_exit_with_message
             (demo_env (Some demo_module) (VDict [])) [] default_namespace eq_refl)
      with (client_module := demo_module) (client := demo_module)
           (system_payload := VDict []); try reflexivity.
    intros v [(attr_name & _ & L) | (items & key & [= <-] & _ & L)]; discriminate.
Defined.

(** C5.  A client that exposes a callable [getSystem] or [get_system],
    itself or on what [system], [systems] or [console] holds, has one such
    method called, once and without arguments, and [_call_get_system] yields
    exactly what that call yields; a payload that exposes a memory-stream
    attribute or key has the value of one such field returned. *)
Theorem exposed_variants_are_retrieved (env : environment) :
  (forall client,
      (exists obj method, reachable client obj /\ exposes_get_system obj method) ->
      exists obj attrs id items,
        reachable client obj /\
        exposes_get_system obj (VObj attrs (Some id) items) /\
        _call_get_system env client = ([Called id [] []], call_fn env id [] [])) /\
  (forall system_payload,
      (exists v, exposes_field system_payload v) ->
      exists v,
        exposes_field system_payload v /\ _extract_memory_stream system_payload = Ok v).
Proof.
  split.
  - intros client. apply call_get_system_found.
  - intros system_payload. apply extract_found.
Qed.

(** [exposed_variants_are_retrieved] at work on an example. *)
Lemma exposed_variants_are_retrieved_witness :
  (exists obj attrs id items,
      reachable (VObj [("console"%string, demo_module)] None None) obj /\
      exposes_get_system obj (VObj attrs (Some id) items) /\
      _call_get_system (demo_env None (VInt 7))
                       (VObj [("console"%string, demo_module)] None None)
      = ([Called id [] []], call_fn (demo_env None (VInt 7)) id [] [])) /\
  (exists v,
      exposes_field (VObj [("memoryStream"%string, VInt 7)] None None) v /\
      _extract_memory_stream (VObj [("memoryStream"%string, VInt 7)] None None) = Ok v).
Proof.
  destruct (exposed_variants_are_retrieved (demo_env None (VInt 7))) as [Method Field].
  split.
  - apply Method. exists demo_module, (VObj [] (Some 0%nat) None). split.
    + right. exists "console"%string. repeat split; [ simpl; auto | discriminate ].
    + exists "getSystem"%string. repeat split. simpl; auto.
  - apply Field. exists (VInt 7). left. exists "memoryStream"%string.
    split; [ simpl; auto | reflexivity ].
Defined.





(** C10.  Extraction tries the attributes [memory_stream], [memoryStream],
    [memory] in this order and only then, on a mapping, the keys
    [memory_stream], [memoryStream], [memory], [memory_streams] in this
    order; the first one present is returned.  Client creation uses
    [GalacticConsoleClient] whenever the module has it, whatever else the
    module has, and returns the module itself when the module has neither
    [GalacticConsoleClient] nor both [Configuration] and [ApiClient]. *)
Theorem lookup_precedence (env : environment) :
  (forall system_payload before name after v,
      attr_names = before ++ name :: after ->
      (forall earlier, In earlier before -> lookup_attr system_payload earlier = None) ->
      lookup_attr system_payload name = Some v ->
      _extract_memory_stream system_payload = Ok v) /\
  (forall system_payload items before key after v,
      dict_items system_payload = Some items ->
      (forall name, In name attr_names -> lookup_attr system_payload name = None) ->
      key_names = before ++ key :: after ->
      (forall earlier, In earlier before -> assoc_key earlier items = None) ->
      assoc_key key items = Some v ->
      _extract_memory_stream system_payload = Ok v) /\
  (forall client_module ctor base_url api_key,
      lookup_attr client_module "GalacticConsoleClient" = Some ctor ->
      _create_client env client_module base_url api_key
      = call env ctor [] (client_kwargs base_url api_key)) /\
  (forall client_module base_url api_key,
      hasattr client_module "GalacticConsoleClient" = false ->
      hasattr client_module "Configuration" && hasattr client_module "ApiClient" = false ->
      _create_client env client_module base_url api_key = ret client_module).
Proof.
  repeat split.
  - intros system_payload before name after v Hnames Hbefore L.
    unfold _extract_memory_stream.
    rewrite (lookup_attr_not_none _ _ _ L), Hnames.
    now rewrite (first_attr_precedence _ before after name v Hbefore L).
  - intros system_payload items before key after v D Hattrs Hkeys Hbefore L.
    unfold _extract_memory_stream.
    rewrite (dict_items_not_none _ _ D).
    destruct (first_attr system_payload attr_names) as [w | ] eqn:A.
    + destruct (first_attr_some _ _ _ A) as (name & Hin & L').
      rewrite (Hattrs name Hin) in L'. discriminate.
    + rewrite D, Hkeys.
      now rewrite (first_key_precedence _ before after key v Hbefore L).
  - intros client_module ctor u k L. unfold _create_client.
    rewrite (hasattr_lookup _ _ _ L). unfold getattr. rewrite L.
    exact (bind_lift_ok ctor (fun c => call env c [] (client_kwargs u k))).
  - intros client_module u k H1 H2. unfold _create_client. now rewrite H1, H2.
Qed.

(** [lookup_precedence] at work on an example. *)
Lemma lookup_precedence_witness :
  _extract_memory_stream
    (VObj [("memory"%string, VInt 1); ("memoryStream"%string, VInt 2)] None
          (Some [(lit "memory_stream", VInt 3)])) = Ok (VInt 2) /\
  _extract_memory_stream
    (VDict [(lit "memory_streams", VInt 4); (lit "memory", VInt 5)]) = Ok (VInt 5) /\
  _create_client (demo_env None VNone)
                 (VObj [("Configuration"%string, VNone); ("ApiClient"%string, VNone);
                        ("GalacticConsoleClient"%string, VObj [] (Some 0%nat) None)]
                       None None)
                 (Some (lit "u")) None
  = ([Called 0%nat [] [("base_url"%string, VStr (lit "u"))]], Ok VNone) /\
  _create_client (demo_env None VNone) demo_module None None = ret demo_module.
Proof.
  destruct (lookup_precedence (demo_env None VNone))
    as (Attr & Key & Preferred & Fallback).
  split; [ | split; [ | split ] ].
  - apply (Attr _ ["memory_stream"%string] "memoryStream"%string ["memory"%string]);
      [ reflexivity | | reflexivity ].
    intros earlier [<- | []]. reflexivity.
  - apply (Key _ [(lit "memory_streams", VInt 4); (lit "memory", VInt 5)]
               [lit "memory_stream"; lit "memoryStream"] (lit "memory")
               [lit "memory_streams"]); try reflexivity.
    intros earlier [<- | [<- | []]]; reflexivity.
  - rewrite (Preferred _ (VObj [] (Some 0%nat) None)); reflexivity.
  - apply Fallback; reflexivity.
Defined.

(** ** The command line *)

Lemma pystr_eqb_eq (s t : pystr) : pystr_eqb s t = true <-> s = t.
Proof.
  revert t. induction s as [ | a s IH]; intros [ | b t]; simpl;
    try (split; [ discriminate | discriminate ]); try (split; reflexivity).
  rewrite andb_true_iff, N.eqb_eq, IH. split.
  - now intros [-> ->].
  - now intros [= -> ->].
Qed.

Lemma lookup_option_in (table : list (pystr * action)) (s : pystr) (act : action) :
  lookup_option table s = Some act -> In (s, act) table.
Proof.
  induction table as [ | [name a] table IH]; simpl; [ discriminate | ].
  destruct (pystr_eqb s name) eqn:E.
  - intros [= ->]. apply pystr_eqb_eq in E. subst. now left.
  - intros H. right. now apply IH.
Qed.


Lemma split_equals_app (s before after : pystr) :
  split_equals s = Some (before, after) -> s = before ++ equals_sign :: after.
Proof.
  revert before. induction s as [ | c s IH]; intros before; simpl; [ discriminate | ].
  destruct (c =? equals_sign) eqn:E.
  - intros [= <- <-]. apply N.eqb_eq in E. now subst.
  - destruct (split_equals s) as [[b a] | ]; [ | discriminate ].
    intros [= <- <-]. simpl. now rewrite (IH b eq_refl).
Qed.

Lemma startswith_prefix (s p : pystr) :
  startswith s p = true -> exists r, s = p ++ r.
Proof.
  revert s. induction p as [ | b p IH]; intros s; simpl.
  - intros _. now exists s.
  - destruct s as [ | a s]; [ discriminate | ].
    intros H. apply andb_true_iff in H. destruct H as [E H].
    apply N.eqb_eq in E. subst. destruct (IH s H) as (r & ->). now exists r.
Qed.

Lemma startswith_app (p r : pystr) : startswith (p ++ r) p = true.
Proof.
  induction p as [ | b p IH]; simpl; [ reflexivity | ].
  now rewrite N.eqb_refl, IH.
Qed.



(** What [classify] records about an argument string is what
    [_parse_optional] says of it. *)
Lemma classify_items (argv : list pystr) :
  forall items,
    classify argv = Ok items ->
    forall a pat,
      In (a, pat) items ->
      In a argv /\
      forall act o e, pat = POption act o e -> _parse_optional a = Optional act o e.
Proof.
  induction argv as [ | arg argv IH]; intros items; cbn [classify].
  - intros [= <-] a pat [].
  - destruct (pystr_eqb arg (lit "--")).
    + intros [= <-] a pat [[= <- <-] | Hin].
      * split; [ now left | discriminate ].
      * apply in_map_iff in Hin. destruct Hin as (x & [= <- <-] & Hx).
        split; [ now right | discriminate ].
    + destruct (_parse_optional arg) as [ | act o e | ] eqn:P; [ | | discriminate ];
        destruct (classify argv) as [rest | ]; try discriminate;
        intros [= <-] a pat [[= <- <-] | Hin];
        try (destruct (IH rest eq_refl a pat Hin) as [Ha Hp]; split; [ now right | exact Hp ]).
      * split; [ now left | discriminate ].
      * split; [ now left | ]. now intros act' o' e' [= <- <- <-].
Qed.




(** What no option took is never forgotten. *)
Lemma consume_extras (n : nat) :
  forall items ns extras r,
    (length items <= n)%nat ->
    consume items ns extras = Ok r ->
    exists more, snd r = extras ++ more.
Proof.
  induction n as [ | n IH]; intros items ns extras r Hlen.
  - destruct items; [ | simpl in Hlen; lia ].
    intros [= <-]. exists []. now rewrite app_nil_r.
  - destruct items as [ | [a pat] rest];
      [ intros [= <-]; exists []; now rewrite app_nil_r | ].
    assert (Hrest : (length rest <= n)%nat) by (simpl in Hlen; lia).
    cbn [consume].
    destruct pat as [ | | [[ | d] | ] o [x | ]]; try discriminate;
      try (intros H; destruct (IH rest _ _ _ Hrest H) as (more & ->);
           rewrite <- app_assoc; eexists; reflexivity);
      try (intros H; exact (IH rest _ _ _ Hrest H)).
    + destruct (pystr_eqb o (lit "-h")); discriminate.
    + destruct rest as [ | [v [ | | ? ? ?]] rest']; try discriminate.
      assert (Hrest' : (length rest' <= n)%nat) by (simpl in Hlen; lia).
      intros H. exact (IH rest' _ _ _ Hrest' H).
Qed.

(** A command line that leaves nothing over consists of the declared
    options and their values. *)
Lemma consume_accepts (n : nat) :
  forall items ns extras ns',
    (length items <= n)%nat ->
    consume items ns extras = Ok (ns', []) ->
    forall a pat,
      In (a, pat) items ->
      pat = PArgument \/ exists d o e, pat = POption (Some (Store d)) o e.
Proof.
  assert (Stuck : forall items ns extras a ns',
             consume items ns (extras ++ [a]) = Ok (ns', []) -> False).
  { intros items ns extras a ns' H.
    destruct (consume_extras (length items) _ _ _ _ (Nat.le_refl _) H) as (more & E).
    cbn [snd] in E. rewrite <- app_assoc in E. now destruct extras. }
  induction n as [ | n IH]; intros items ns extras ns' Hlen.
  - destruct items; [ | simpl in Hlen; lia ]. now intros _ a pat [].
  - destruct items as [ | [a pat] rest]; [ now intros _ a pat [] | ].
    assert (Hrest : (length rest <= n)%nat) by (simpl in Hlen; lia).
    cbn [consume].
    destruct pat as [ | | [[ | d] | ] o [x | ]]; try discriminate;
      try (intros H; now destruct (Stuck _ _ _ _ _ H)).
    + destruct (pystr_eqb o (lit "-h")); discriminate.
    + intros H a' pat' [[= <- <-] | Hin]; [ right; eauto | ].
      exact (IH rest _ _ _ Hrest H a' pat' Hin).
    + destruct rest as [ | [v [ | | ? ? ?]] rest']; try discriminate.
      assert (Hrest' : (length rest' <= n)%nat) by (simpl in Hlen; lia).
      intros H a' pat' [[= <- <-] | [[= <- <-] | Hin]];
        [ right; eauto | now left | ].
      exact (IH rest' _ _ _ Hrest' H a' pat' Hin).
Qed.

Lemma parse_args_inv (argv : list pystr) (ns : namespace) :
  parse_args argv = Ok ns ->
  exists items, classify argv = Ok items /\ consume items default_namespace [] = Ok (ns, []).
Proof.
  unfold parse_args.
  destruct (classify argv) as [items | ]; [ cbn [rbind] | discriminate ].
  destruct (consume items default_namespace []) as [[ns' extras] | ] eqn:C;
    [ cbn [rbind fst snd] | discriminate ].
  destruct extras; [ | discriminate ].
  intros [= <-]. exists items. split; [ reflexivity | exact C ].
Qed.





(** * Further properties *)

(** ** The decoder and the encoding *)





Lemma utf8_strict_replace (items : list (option N)) (text : pystr) :
  utf8_strict items = Some text ->
  map (fun item => match item with
                   | Some c => c
                   | None => replacement_character
                   end) items = text.
Proof.
  revert text. induction items as [ | [c | ] items IH]; intros text; simpl.
  - now intros [= <-].
  - destruct (utf8_strict items) as [t | ]; simpl; [ | discriminate ].
    intros [= <-]. now rewrite (IH t).
  - discriminate.
Qed.

(** X3.  When the bytes do not decode with the given encoding but are valid
    UTF-8, the fallback yields exactly their UTF-8 text, without any
    replacement character. *)
Theorem fallback_on_valid_utf8 (env : environment) (memory_stream : value)
    (encoding : pystr) (raw_bytes : bytes) (text : pystr) :
  raw_bytes_of env memory_stream encoding = Ok raw_bytes ->
  bytes_decode env raw_bytes encoding = Err UnicodeDecodeError ->
  utf8_decode raw_bytes = Some text ->
  _decode_memory_stream env memory_stream encoding = Ok text.
Proof.
  intros Hraw Hdec Hutf. unfold _decode_memory_stream. rewrite Hraw. cbn [rbind].
  rewrite (decode_or_replace_fallback _ _ _ Hdec). f_equal.
  now apply utf8_strict_replace.
Qed.

(** [fallback_on_valid_utf8] at work on an example. *)
Lemma fallback_on_valid_utf8_witness :
  _decode_memory_stream (demo_env None VNone) (VBytes [xc3; xa9]) (lit "ascii")
  = Ok [233].
Proof.
  apply (fallback_on_valid_utf8 (demo_env None VNone) (VBytes [xc3; xa9]) (lit "ascii")
           [xc3; xa9] [233]); reflexivity.
Defined.

(** ** UTF-8 round trip *)

Ltac euclid := zify; Z.to_euclidean_division_equations; lia.

Lemma to_N_byte_of_N (n : N) : n < 256 -> Byte.to_N (byte_of_N n) = n.
Proof.
  intros H. unfold byte_of_N. destruct (Byte.of_N n) as [b | ] eqn:E.
  - now apply Byte.to_of_N.
  - apply Byte.of_N_None_iff in E. lia.
Qed.

(** A property checked on every number below [n] holds below [n]. *)
Lemma forall_below (P : N -> bool) (n : nat) :
  forallb P (map N.of_nat (seq 0 n)) = true ->
  forall q, q < N.of_nat n -> P q = true.
Proof.
  intros H q Hq. rewrite forallb_forall in H. apply H.
  apply in_map_iff. exists (N.to_nat q). split; [ apply N2Nat.id | ].
  apply in_seq. lia.
Qed.

Lemma lead_is_true (b n lo hi : N) :
  lead_is b n lo hi = true -> utf8_lead b = Some (n, lo, hi).
Proof.
  unfold lead_is. destruct (utf8_lead b) as [[[n' lo'] hi'] | ]; [ | discriminate ].
  intros H. apply andb_true_iff in H. destruct H as [H Hhi].
  apply andb_true_iff in H. destruct H as [Hn Hlo].
  apply N.eqb_eq in Hn, Hlo, Hhi. now subst.
Qed.

Lemma continuation_byte (r : N) :
  r < 64 -> is_continuation (0x80 + r) = true /\ payload (0x80 + r) = r.
Proof.
  intros H.
  pose proof (forall_below
                (fun r => is_continuation (0x80 + r) && (payload (0x80 + r) =? r))
                64 ltac:(vm_compute; reflexivity) r H) as P.
  cbv beta in P. apply andb_true_iff in P. destruct P as [P1 P2].
  apply N.eqb_eq in P2. auto.
Qed.

Lemma lead_two (q : N) :
  2 <= q -> q < 32 ->
  (0xC0 + q <? 0x80) = false /\ utf8_lead (0xC0 + q) = Some (1, 0x80, 0xBF) /\
  N.land (0xC0 + q) 0x1F = q.
Proof.
  intros Lo Hi.
  pose proof (forall_below
                (fun q => (q <? 2) ||
                          (negb (0xC0 + q <? 0x80) && lead_is (0xC0 + q) 1 0x80 0xBF
                           && (N.land (0xC0 + q) 0x1F =? q)))
                32 ltac:(vm_compute; reflexivity) q Hi) as P.
  cbv beta in P. apply orb_true_iff in P. destruct P as [P | P].
  - apply N.ltb_lt in P. lia.
  - apply andb_true_iff in P. destruct P as [P P3].
    apply andb_true_iff in P. destruct P as [P1 P2].
    apply negb_true_iff in P1. apply lead_is_true in P2. apply N.eqb_eq in P3. auto.
Qed.

Lemma lead_three (q : N) :
  q < 16 ->
  (0xE0 + q <? 0x80) = false /\
  utf8_lead (0xE0 + q)
  = Some (2, if q =? 0 then 0xA0 else 0x80, if q =? 13 then 0x9F else 0xBF) /\
  N.land (0xE0 + q) 0x0F = q.
Proof.
  intros Hi.
  pose proof (forall_below
                (fun q => negb (0xE0 + q <? 0x80)
                          && lead_is (0xE0 + q) 2 (if q =? 0 then 0xA0 else 0x80)
                                     (if q =? 13 then 0x9F else 0xBF)
                          && (N.land (0xE0 + q) 0x0F =? q))
                16 ltac:(vm_compute; reflexivity) q Hi) as P.
  cbv beta in P.
  apply andb_true_iff in P. destruct P as [P P3].
  apply andb_true_iff in P. destruct P as [P1 P2].
  apply negb_true_iff in P1. apply lead_is_true in P2. apply N.eqb_eq in P3. auto.
Qed.

Lemma lead_four (q : N) :
  q < 5 ->
  (0xF0 + q <? 0x80) = false /\
  utf8_lead (0xF0 + q)
  = Some (3, if q =? 0 then 0x90 else 0x80, if q =? 4 then 0x8F else 0xBF) /\
  N.land (0xF0 + q) 0x07 = q.
Proof.
  intros Hi.
  pose proof (forall_below
                (fun q => negb (0xF0 + q <? 0x80)
                          && lead_is (0xF0 + q) 3 (if q =? 0 then 0x90 else 0x80)
                                     (if q =? 4 then 0x8F else 0xBF)
                          && (N.land (0xF0 + q) 0x07 =? q))
                5 ltac:(vm_compute; reflexivity) q Hi) as P.
  cbv beta in P.
  apply andb_true_iff in P. destruct P as [P P3].
  apply andb_true_iff in P. destruct P as [P1 P2].
  apply negb_true_iff in P1. apply lead_is_true in P2. apply N.eqb_eq in P3. auto.
Qed.

(** The scan, unfolded once. *)
Lemma utf8_scan_unfold (b0 : byte) (rest : bytes) :
  utf8_scan (b0 :: rest) =
  if Byte.to_N b0 <? 0x80 then Some (Byte.to_N b0) :: utf8_scan rest
  else
    match utf8_lead (Byte.to_N b0) with
    | None => None :: utf8_scan rest
    | Some (n, lo, hi) =>
        match rest with
        | [] => [None]
        | b1 :: r1 =>
            if negb (in_range lo hi (Byte.to_N b1)) then None :: utf8_scan rest
            else if n =? 1 then
              Some (N.land (Byte.to_N b0) 0x1F * 64 + payload (Byte.to_N b1))
                :: utf8_scan r1
            else
              match r1 with
              | [] => [None]
              | b2 :: r2 =>
                  if negb (is_continuation (Byte.to_N b2)) then None :: utf8_scan r1
                  else if n =? 2 then
                    Some (N.land (Byte.to_N b0) 0x0F * 4096
                          + payload (Byte.to_N b1) * 64 + payload (Byte.to_N b2))
                      :: utf8_scan r2
                  else
                    match r2 with
                    | [] => [None]
                    | b3 :: r3 =>
                        if negb (is_continuation (Byte.to_N b3))
                        then None :: utf8_scan r2
                        else
                          Some (N.land (Byte.to_N b0) 0x07 * 262144
                                + payload (Byte.to_N b1) * 4096
                                + payload (Byte.to_N b2) * 64
                                + payload (Byte.to_N b3))
                            :: utf8_scan r3
                    end
              end
        end
    end.
Proof. reflexivity. Qed.

Lemma utf8_scan_one (b0 : byte) (rest : bytes) :
  (Byte.to_N b0 <? 0x80) = true ->
  utf8_scan (b0 :: rest) = Some (Byte.to_N b0) :: utf8_scan rest.
Proof. intros H. now rewrite utf8_scan_unfold, H. Qed.

Lemma utf8_scan_two (b0 b1 : byte) (lo hi : N) (rest : bytes) :
  (Byte.to_N b0 <? 0x80) = false ->
  utf8_lead (Byte.to_N b0) = Some (1, lo, hi) ->
  in_range lo hi (Byte.to_N b1) = true ->
  utf8_scan (b0 :: b1 :: rest)
  = Some (N.land (Byte.to_N b0) 0x1F * 64 + payload (Byte.to_N b1)) :: utf8_scan rest.
Proof. intros H0 Hlead H1. now rewrite utf8_scan_unfold, H0, Hlead, H1. Qed.

Lemma utf8_scan_three (b0 b1 b2 : byte) (lo hi : N) (rest : bytes) :
  (Byte.to_N b0 <? 0x80) = false ->
  utf8_lead (Byte.to_N b0) = Some (2, lo, hi) ->
  in_range lo hi (Byte.to_N b1) = true ->
  is_continuation (Byte.to_N b2) = true ->
  utf8_scan (b0 :: b1 :: b2 :: rest)
  = Some (N.land (Byte.to_N b0) 0x0F * 4096 + payload (Byte.to_N b1) * 64
          + payload (Byte.to_N b2)) :: utf8_scan rest.
Proof. intros H0 Hlead H1 H2. now rewrite utf8_scan_unfold, H0, Hlead, H1, H2. Qed.

Lemma utf8_scan_four (b0 b1 b2 b3 : byte) (lo hi : N) (rest : bytes) :
  (Byte.to_N b0 <? 0x80) = false ->
  utf8_lead (Byte.to_N b0) = Some (3, lo, hi) ->
  in_range lo hi (Byte.to_N b1) = true ->
  is_continuation (Byte.to_N b2) = true ->
  is_continuation (Byte.to_N b3) = true ->
  utf8_scan (b0 :: b1 :: b2 :: b3 :: rest)
  = Some (N.land (Byte.to_N b0) 0x07 * 262144 + payload (Byte.to_N b1) * 4096
          + payload (Byte.to_N b2) * 64 + payload (Byte.to_N b3)) :: utf8_scan rest.
Proof.
  intros H0 Hlead H1 H2 H3. now rewrite utf8_scan_unfold, H0, Hlead, H1, H2, H3.
Qed.

Lemma in_range_bounds (lo hi b : N) : lo <= b -> b <= hi -> in_range lo hi b = true.
Proof. intros. unfold in_range. apply andb_true_iff. split; now apply N.leb_le. Qed.

(** What the encoder writes for a character, the scan reads back as that
    character. *)
Lemma utf8_scan_encoded (c : N) (b rest : bytes) :
  code_point c = true ->
  utf8_encode_char c = Some b ->
  utf8_scan (b ++ rest) = Some c :: utf8_scan rest.
Proof.
  unfold code_point, utf8_encode_char. intros Hc. apply N.leb_le in Hc.
  destruct (c <? 0x80) eqn:C1.
  { intros E. assert (Hb : b = [byte_of_N c]) by congruence. subst b. clear E.
    apply N.ltb_lt in C1. cbn [app].
    rewrite utf8_scan_one; rewrite to_N_byte_of_N by lia;
      [ reflexivity | now apply N.ltb_lt ]. }
  apply N.ltb_ge in C1.
  destruct (c <? 0x800) eqn:C2.
  { intros E.
    assert (Hb : b = [byte_of_N (0xC0 + c / 64); byte_of_N (0x80 + c mod 64)])
      by congruence.
    subst b. clear E. apply N.ltb_lt in C2. cbn [app].
    assert (Q : 2 <= c / 64 < 32) by euclid.
    assert (R : c mod 64 < 64) by euclid.
    destruct (lead_two (c / 64)) as (L1 & L2 & L3); try lia.
    destruct (continuation_byte (c mod 64) R) as (K1 & K2).
    rewrite (utf8_scan_two _ _ 0x80 0xBF);
      rewrite ?to_N_byte_of_N by lia; auto.
    rewrite L3, K2. do 2 f_equal. euclid. }
  apply N.ltb_ge in C2.
  destruct (in_range 0xD800 0xDFFF c) eqn:S; [ discriminate | ].
  assert (NotSurrogate : c < 0xD800 \/ 0xDFFF < c).
  { unfold in_range in S. apply andb_false_iff in S.
    destruct S as [S | S]; apply N.leb_gt in S; lia. }
  destruct (c <? 0x10000) eqn:C3.
  { intros E.
    assert (Hb : b = [byte_of_N (0xE0 + c / 4096);
                      byte_of_N (0x80 + (c / 64) mod 64);
                      byte_of_N (0x80 + c mod 64)]) by congruence.
    subst b. clear E. apply N.ltb_lt in C3. cbn [app].
    assert (Q : c / 4096 < 16) by euclid.
    assert (M : (c / 64) mod 64 < 64) by euclid.
    assert (R : c mod 64 < 64) by euclid.
    destruct (lead_three (c / 4096) Q) as (L1 & L2 & L3).
    destruct (continuation_byte _ M) as (M1 & M2).
    destruct (continuation_byte _ R) as (K1 & K2).
    rewrite (utf8_scan_three _ _ _ (if c / 4096 =? 0 then 0xA0 else 0x80)
                             (if c / 4096 =? 13 then 0x9F else 0xBF));
      rewrite ?to_N_byte_of_N by lia; auto.
    - rewrite L3, M2, K2. do 2 f_equal. euclid.
    - apply in_range_bounds.
      + destruct (c / 4096 =? 0) eqn:Z; [ apply N.eqb_eq in Z; euclid | lia ].
      + destruct (c / 4096 =? 13) eqn:Z; [ apply N.eqb_eq in Z; euclid | lia ]. }
  apply N.ltb_ge in C3.
  intros E.
  assert (Hb : b = [byte_of_N (0xF0 + c / 262144);
                    byte_of_N (0x80 + (c / 4096) mod 64);
                    byte_of_N (0x80 + (c / 64) mod 64);
                    byte_of_N (0x80 + c mod 64)]) by congruence.
  subst b. clear E. cbn [app].
  assert (Q : c / 262144 < 5) by euclid.
  assert (M' : (c / 4096) mod 64 < 64) by euclid.
  assert (M : (c / 64) mod 64 < 64) by euclid.
  assert (R : c mod 64 < 64) by euclid.
  destruct (lead_four (c / 262144) Q) as (L1 & L2 & L3).
  destruct (continuation_byte _ M') as (N1 & N2).
  destruct (continuation_byte _ M) as (M1 & M2).
  destruct (continuation_byte _ R) as (K1 & K2).
  rewrite (utf8_scan_four _ _ _ _ (if c / 262144 =? 0 then 0x90 else 0x80)
                          (if c / 262144 =? 4 then 0x8F else 0xBF));
    rewrite ?to_N_byte_of_N by lia; auto.
  - rewrite L3, N2, M2, K2. do 2 f_equal. euclid.
  - apply in_range_bounds.
    + destruct (c / 262144 =? 0) eqn:Z; [ apply N.eqb_eq in Z; euclid | lia ].
    + destruct (c / 262144 =? 4) eqn:Z; [ apply N.eqb_eq in Z; euclid | lia ].
Qed.

Lemma utf8_scan_encode (s : pystr) :
  forall bs,
    forallb code_point s = true ->
    utf8_encode s = Some bs ->
    utf8_scan bs = map Some s.
Proof.
  induction s as [ | c s IH]; intros bs; cbn [forallb utf8_encode map].
  - now intros _ [= <-].
  - intros H. apply andb_true_iff in H. destruct H as [Hc Hs].
    destruct (utf8_encode_char c) as [b | ] eqn:Ec; [ | discriminate ].
    destruct (utf8_encode s) as [bs' | ]; [ | discriminate ].
    intros [= <-]. rewrite (utf8_scan_encoded c b bs' Hc Ec). f_equal. now apply IH.
Qed.

Lemma utf8_strict_map_some (s : pystr) : utf8_strict (map Some s) = Some s.
Proof. induction s as [ | c s IH]; simpl; [ reflexivity | now rewrite IH ]. Qed.

Lemma utf8_round_trip (s : pystr) (bs : bytes) :
  forallb code_point s = true ->
  utf8_encode s = Some bs ->
  utf8_decode bs = Some s.
Proof.
  intros Hs He. unfold utf8_decode. rewrite (utf8_scan_encode s bs Hs He).
  apply utf8_strict_map_some.
Qed.

Lemma utf8_encode_scalar (s : pystr) :
  forallb scalar s = true ->
  forallb code_point s = true /\ exists bs, utf8_encode s = Some bs.
Proof.
  induction s as [ | c s IH]; cbn [forallb utf8_encode]; [ eauto | ].
  intros H. apply andb_true_iff in H. destruct H as [Hc Hs].
  destruct (IH Hs) as (Hcp & bs & ->).
  unfold scalar in Hc. apply andb_true_iff in Hc. destruct Hc as [Hc Hns].
  apply negb_true_iff in Hns. rewrite Hc, Hcp. split; [ reflexivity | ].
  unfold utf8_encode_char. rewrite Hns.
  destruct (c <? 0x80); [ eauto | ].
  destruct (c <? 0x800); [ eauto | ].
  destruct (c <? 0x10000); eauto.
Qed.

(** X4.  Under UTF-8, text that does not validate as base64 and has no
    surrogate code point comes out of the decoder unchanged. *)
Theorem plain_text_unchanged_under_utf8 (env : environment) (encoding : pystr)
    (s : pystr) (e : exn) :
  codecs env encoding = Some utf8_codec ->
  b64decode_validate s = Err e ->
  forallb scalar s = true ->
  _decode_memory_stream env (VStr s) encoding = Ok s.
Proof.
  intros Hcodec Hb64 Hs.
  destruct (utf8_encode_scalar s Hs) as (Hcp & bs & Henc).
  unfold _decode_memory_stream. rewrite raw_bytes_of_text, Hb64.
  unfold str_encode. rewrite Hcodec. cbn [encode utf8_codec]. rewrite Henc.
  cbn [rbind]. apply decode_or_replace_ok.
  unfold bytes_decode. rewrite Hcodec. cbn [decode utf8_codec].
  now rewrite (utf8_round_trip s bs Hcp Henc).
Qed.

(** [plain_text_unchanged_under_utf8] at work on an example. *)
Lemma plain_text_unchanged_under_utf8_witness :
  _decode_memory_stream (demo_env None VNone) (VStr (lit "caf" ++ [233; 8364; 128512]))
                        (lit "utf-8")
  = Ok (lit "caf" ++ [233; 8364; 128512]).
Proof.
  apply (plain_text_unchanged_under_utf8 (demo_env None VNone) (lit "utf-8")
           (lit "caf" ++ [233; 8364; 128512]) ValueError); reflexivity.
Defined.

(** X5.  Under UTF-8, a value that is neither bytes nor text comes out as
    its JSON text, whenever that text has no surrogate code point. *)
Theorem json_text_under_utf8 (env : environment) (encoding : pystr)
    (memory_stream : value) (text : pystr) :
  codecs env encoding = Some utf8_codec ->
  is_structured memory_stream = true ->
  json_dumps memory_stream = Ok text ->
  forallb scalar text = true ->
  _decode_memory_stream env memory_stream encoding = Ok text.
Proof.
  intros Hcodec Hv Hjson Hs.
  destruct (utf8_encode_scalar text Hs) as (Hcp & bs & Henc).
  unfold _decode_memory_stream.
  rewrite (raw_bytes_of_structured _ _ _ Hv), Hjson. cbn [rbind].
  unfold str_encode. rewrite Hcodec. cbn [encode utf8_codec]. rewrite Henc.
  cbn [rbind]. apply decode_or_replace_ok.
  unfold bytes_decode. rewrite Hcodec. cbn [decode utf8_codec].
  now rewrite (utf8_round_trip text bs Hcp Henc).
Qed.

(** [json_text_under_utf8] at work on an example. *)
Lemma json_text_under_utf8_witness :
  _decode_memory_stream (demo_env None VNone)
                        (VDict [(lit "k", VList [VBool true; VStr [233]])]) (lit "utf-8")
  = Ok (lit "{" ++ [quote_char; 107; quote_char] ++ lit ": [true, "
        ++ [quote_char; 233; quote_char] ++ lit "]}").
Proof.
  apply (json_text_under_utf8 (demo_env None VNone) (lit "utf-8")); reflexivity.
Defined.

Lemma a2b_loop_foreign (c : N) :
  b64_digit c = None -> (c =? b64_pad) = false ->
  forall s quad_pos leftchar pads padding_started,
    In c s ->
    exists e, a2b_loop s quad_pos leftchar pads padding_started = Err e.
Proof.
  intros Hdigit Hpad.
  induction s as [ | x s IH]; intros q l p st Hin; [ now destruct Hin | ].
  cbn [a2b_loop]. destruct Hin as [-> | Hin].
  - rewrite Hpad, Hdigit. eauto.
  - destruct (x =? b64_pad).
    + destruct (2 <=? q); [ destruct (4 <=? q + (p + 1)) | ]; try now apply IH.
      destruct s; [ now destruct Hin | eauto ].
    + destruct (b64_digit x); [ | eauto ].
      destruct st; [ eauto | ].
      destruct (q =? 0); [ now apply IH | ].
      destruct (q =? 1); [ | destruct (q =? 2) ];
        match goal with
        | |- exists e, push_byte _ (a2b_loop s ?q' ?l' ?p' ?s') = _ =>
            destruct (IH q' l' p' s' Hin) as (e & ->); simpl; eauto
        end.
Qed.

(** X6.  Text that contains a character outside the base64 alphabet and
    padding (a space, a line break, punctuation, a letter with an accent) is
    never decoded as base64: it is encoded with the given encoding. *)
Theorem foreign_character_means_text (env : environment) (encoding : pystr)
    (s : pystr) (c : N) :
  In c s ->
  base64_character c = false ->
  (exists e, b64decode_validate s = Err e) /\
  _decode_memory_stream env (VStr s) encoding
  = rbind (str_encode env s encoding) (fun raw_bytes =>
    decode_or_replace env raw_bytes encoding).
Proof.
  intros Hin Hc. unfold base64_character in Hc.
  destruct (b64_digit c) eqn:Hdigit; [ discriminate | ].
  assert (Herr : exists e, b64decode_validate s = Err e).
  { unfold b64decode_validate, a2b_base64_strict.
    destruct (forallb _ s); [ | eauto ].
    destruct s as [ | x s']; [ now destruct Hin | ].
    destruct (x =? b64_pad); [ eauto | ].
    now apply (a2b_loop_foreign c). }
  split; [ exact Herr | ].
  destruct Herr as (e & Herr).
  unfold _decode_memory_stream. now rewrite raw_bytes_of_text, Herr.
Qed.

(** [foreign_character_means_text] at work on an example. *)
Lemma foreign_character_means_text_witness :
  exists e, b64decode_validate (lit "QUJD QUJD") = Err e.
Proof.
  apply (foreign_character_means_text (demo_env None VNone) (lit "utf-8")
           (lit "QUJD QUJD") 32); [ simpl; auto 10 | reflexivity ].
Defined.

(** ** Extraction and the located operation *)

(** X7.  Extraction returns nothing but the value of a supported attribute
    or key of the payload, and it fails only when the payload has none, always
    with [SystemExit] and one of its two messages. *)
Theorem extract_returns_only_exposed_fields (system_payload : value) :
  (forall v,
      _extract_memory_stream system_payload = Ok v -> exposes_field system_payload v) /\
  (forall e,
      _extract_memory_stream system_payload = Err e ->
      (forall v, ~ exposes_field system_payload v) /\
      e = SystemExit (ExitStr (if is_none system_payload
                               then no_data else no_memory_stream))).
Proof.
  split.
  - intros v. apply extract_exposed.
  - intros e H. destruct (extract_not_exposed _ _ H) as [He Hno]. auto.
Qed.

(** [extract_returns_only_exposed_fields] at work on an example. *)
Lemma extract_returns_only_exposed_fields_witness :
  exposes_field (VObj [("memory"%string, VInt 3)] None (Some [(lit "memory_stream", VInt 4)]))
                (VInt 3) /\
  forall v, ~ exposes_field (VObj [("memory_streams"%string, VInt 3)] None None) v.
Proof.
  split.
  - apply (extract_returns_only_exposed_fields
             (VObj [("memory"%string, VInt 3)] None (Some [(lit "memory_stream", VInt 4)]))).
    reflexivity.
  - apply (extract_returns_only_exposed_fields
             (VObj [("memory_streams"%string, VInt 3)] None None))
      with (e := SystemExit (ExitStr no_memory_stream)).
    reflexivity.
Defined.

Lemma find_method_absent (obj : value) :
  (forall method, ~ exposes_get_system obj method) -> find_method obj method_names = None.
Proof.
  intros H. destruct (find_method obj method_names) as [method | ] eqn:F; [ | reflexivity ].
  now destruct (H method (find_method_some _ _ _ F)).
Qed.

Lemma find_method_precedence (obj : value) (earlier later : list string) (name : string)
    (method : value) :
  (forall n m, In n earlier -> lookup_attr obj n = Some m -> callable m = false) ->
  lookup_attr obj name = Some method ->
  callable method = true ->
  find_method obj (earlier ++ name :: later) = Some method.
Proof.
  intros Hearlier L C. induction earlier as [ | n earlier IH]; cbn [app find_method].
  - unfold getattr_default. now rewrite L, C.
  - replace (callable (getattr_default obj n VNone)) with false.
    + apply IH. intros n' m Hin. apply Hearlier. now right.
    + unfold getattr_default. destruct (lookup_attr obj n) as [m | ] eqn:Ln;
        [ | reflexivity ].
      symmetry. apply (Hearlier n m); [ now left | exact Ln ].
Qed.

Lemma locate_get_system_precedence (before after : list value) (obj method : value) :
  (forall o m, In o before -> ~ exposes_get_system o m) ->
  find_method obj method_names = Some method ->
  locate_get_system (before ++ obj :: after) = Some method.
Proof.
  intros Hbefore F. induction before as [ | o before IH]; cbn [app locate_get_system].
  - now rewrite F.
  - rewrite (find_method_absent o) by (intros m; apply Hbefore; now left).
    apply IH. intros o' m Hin. apply Hbefore. now right.
Qed.

(** X8.  The operation is looked for on the client first and then on what
    [system], [systems] and [console] hold, in this order, and on each object
    under [getSystem] before [get_system]; an attribute of one of these names
    that is not callable is passed over.  The first callable found is the one
    called. *)
Theorem call_get_system_precedence (env : environment) (client : value)
    (before after : list value) (obj : value) (earlier later : list string)
    (name : string) (method : value) :
  candidate_objects client = before ++ obj :: after ->
  (forall o m, In o before -> ~ exposes_get_system o m) ->
  method_names = earlier ++ name :: later ->
  (forall n m, In n earlier -> lookup_attr obj n = Some m -> callable m = false) ->
  lookup_attr obj name = Some method ->
  callable method = true ->
  _call_get_system env client = call env method [] [].
Proof.
  intros Hobjs Hbefore Hnames Hearlier L C. unfold _call_get_system.
  rewrite Hobjs, (locate_get_system_precedence before after obj method Hbefore);
    [ reflexivity | ].
  rewrite Hnames. now apply find_method_precedence.
Qed.

(** [call_get_system_precedence] at work on an example. *)
Lemma call_get_system_precedence_witness :
  _call_get_system
    (demo_env None (VInt 7))
    (VObj [("getSystem"%string, VInt 1);
           ("console"%string, VObj [("getSystem"%string, VObj [] (Some 1%nat) None)] None None);
           ("system"%string,
            VObj [("getSystem"%string, VNone);
                  ("get_system"%string, VObj [] (Some 0%nat) None)] None None)]
          None None)
  = ([Called 0%nat [] []], Ok (VInt 7)).
Proof.
  apply (call_get_system_precedence
           (demo_env None (VInt 7)) _
           [VObj [("getSystem"%string, VInt 1);
                  ("console"%string,
                   VObj [("getSystem"%string, VObj [] (Some 1%nat) None)] None None);
                  ("system"%string,
                   VObj [("getSystem"%string, VNone);
                         ("get_system"%string, VObj [] (Some 0%nat) None)] None None)]
                 None None]
           [VObj [("getSystem"%string, VObj [] (Some 1%nat) None)] None None]
           (VObj [("getSystem"%string, VNone);
                  ("get_system"%string, VObj [] (Some 0%nat) None)] None None)
           ["getSystem"%string] [] "get_system"%string (VObj [] (Some 0%nat) None));
    try reflexivity.
  - intros o m [<- | []] (n & [<- | [<- | []]] & L & C);
      simpl in L; try discriminate L; injection L as <-; discriminate C.
  - intros n m [<- | []] L. simpl in L. now injection L as <-.
Defined.

(** ** Creating the client *)

Lemma truthy_idempotent (s : option pystr) : truthy (truthy s) = truthy s.
Proof. destruct s as [[ | c s] | ]; reflexivity. Qed.

(** X9.  An empty [--base-url] or [--api-key] counts as absent: the client
    is created exactly as if the option had not been given. *)
Theorem empty_options_are_absent (env : environment) (client_module : value)
    (base_url api_key : option pystr) :
  _create_client env client_module base_url api_key
  = _create_client env client_module (truthy base_url) (truthy api_key) /\
  _create_client env client_module (Some []) (Some [])
  = _create_client env client_module None None.
Proof.
  split; [ | reflexivity ].
  unfold _create_client, client_kwargs, configure.
  now rewrite !truthy_idempotent.
Qed.

Lemma assoc_attr_set_same (name : string) (v : value) (attrs : list (string * value)) :
  assoc_attr name (set_assoc_attr name v attrs) = Some v.
Proof.
  induction attrs as [ | [n x] attrs IH]; simpl.
  - now rewrite String.eqb_refl.
  - destruct (String.eqb name n) eqn:E; simpl; now rewrite E.
Qed.

Lemma assoc_attr_set_other (name other : string) (v : value)
    (attrs : list (string * value)) :
  other <> name ->
  assoc_attr other (set_assoc_attr name v attrs) = assoc_attr other attrs.
Proof.
  intros Hneq.
  assert (E0 : String.eqb other name = false) by now apply String.eqb_neq.
  induction attrs as [ | [n x] attrs IH]; simpl.
  - now rewrite E0.
  - destruct (String.eqb name n) eqn:E; simpl.
    + apply String.eqb_eq in E. subst n. now rewrite E0.
    + now rewrite IH.
Qed.

Lemma pystr_eqb_refl (s : pystr) : pystr_eqb s s = true.
Proof. now apply pystr_eqb_eq. Qed.

Lemma pystr_eqb_neq (s t : pystr) : s <> t -> pystr_eqb s t = false.
Proof.
  intros H. destruct (pystr_eqb s t) eqn:E; [ | reflexivity ].
  apply pystr_eqb_eq in E. contradiction.
Qed.

Lemma assoc_key_set_same (key : pystr) (v : value) (items : list (pystr * value)) :
  assoc_key key (set_assoc_key key v items) = Some v.
Proof.
  induction items as [ | [k x] items IH]; simpl.
  - now rewrite pystr_eqb_refl.
  - destruct (pystr_eqb key k) eqn:E; simpl; now rewrite E.
Qed.

Lemma assoc_key_set_other (key other : pystr) (v : value)
    (items : list (pystr * value)) :
  other <> key ->
  assoc_key other (set_assoc_key key v items) = assoc_key other items.
Proof.
  intros Hneq. pose proof (pystr_eqb_neq _ _ Hneq) as E0.
  induction items as [ | [k x] items IH]; simpl.
  - now rewrite E0.
  - destruct (pystr_eqb key k) eqn:E; simpl.
    + apply pystr_eqb_eq in E. subst k. now rewrite E0.
    + now rewrite IH.
Qed.

(** Storing the host. *)
Lemma configure_host (configuration configured : value) (base_url : option pystr) :
  match truthy base_url with
  | Some u => setattr configuration "host" (VStr u)
  | None => Ok configuration
  end = Ok configured ->
  lookup_attr configured "host"
  = match truthy base_url with
    | Some u => Some (VStr u)
    | None => lookup_attr configuration "host"
    end /\
  (forall name, name <> "host"%string ->
                lookup_attr configured name = lookup_attr configuration name) /\
  (is_object configuration = true -> is_object configured = true).
Proof.
  destruct (truthy base_url) as [u | ].
  - destruct configuration; try discriminate. intros [= <-]. cbn [lookup_attr].
    repeat split.
    + apply assoc_attr_set_same.
    + intros name Hname. now apply assoc_attr_set_other.
  - intros [= <-]. auto.
Qed.

(** Storing the API key. *)
Lemma configure_api_key (configuration configured : value) (key : pystr) :
  rbind (setattr configuration "api_key"
           (getattr_default configuration "api_key" (VDict []))) (fun configuration' =>
  rbind (getattr configuration' "api_key") (fun keys =>
  rbind (setitem keys (lit "api_key") (VStr key)) (fun keys' =>
  setattr configuration' "api_key" keys'))) = Ok configured ->
  assoc_key (lit "api_key") (api_keys configured) = Some (VStr key) /\
  (forall other, other <> lit "api_key" ->
                 assoc_key other (api_keys configured)
                 = assoc_key other (api_keys configuration)) /\
  (forall name, name <> "api_key"%string ->
                lookup_attr configured name = lookup_attr configuration name).
Proof.
  destruct configuration as [ | | | | | | | | attrs cl it]; try discriminate.
  cbn [setattr rbind]. unfold getattr. cbn [lookup_attr].
  rewrite assoc_attr_set_same. cbn [rbind].
  unfold api_keys, getattr_default. cbn [lookup_attr].
  assert (Rest : forall keys' old name,
             name <> "api_key"%string ->
             assoc_attr name (set_assoc_attr "api_key" keys'
                                (set_assoc_attr "api_key" old attrs))
             = assoc_attr name attrs).
  { intros keys' old name Hname. now rewrite !assoc_attr_set_other. }
  destruct (assoc_attr "api_key" attrs) as [old | ].
  - destruct old as [ | | | | | | | items | a c [items | ]]; try discriminate;
      cbn [setitem rbind setattr]; intros [= <-]; cbn [lookup_attr];
      rewrite assoc_attr_set_same; cbn [dict_items];
      (split; [ apply assoc_key_set_same | split ]);
      [ intros other Hother; now apply assoc_key_set_other | apply Rest
      | intros other Hother; now apply assoc_key_set_other | apply Rest ].
  - change (setitem (VDict []) (lit "api_key") (VStr key))
      with (Ok (VDict (set_assoc_key (lit "api_key") (VStr key) []))).
    cbn [rbind setattr]. intros [= <-]. cbn [lookup_attr].
    rewrite assoc_attr_set_same. cbn [dict_items].
    split; [ exact (assoc_key_set_same (lit "api_key") (VStr key) []) | split ].
    + intros other Hother.
      exact (assoc_key_set_other (lit "api_key") other (VStr key) [] Hother).
    + apply Rest.
Qed.

(** X10.  A configuration that has been set up holds the base URL as its
    [host] and the API key under the key [api_key] of its [api_key] mapping;
    the API keys it already had are kept, an option that was not given leaves
    its attribute alone, and no other attribute is touched. *)
Theorem configure_effect (configuration configured : value)
    (base_url api_key : option pystr) :
  configure configuration base_url api_key = Ok configured ->
  lookup_attr configured "host"
  = match truthy base_url with
    | Some u => Some (VStr u)
    | None => lookup_attr configuration "host"
    end /\
  (forall key,
      truthy api_key = Some key ->
      assoc_key (lit "api_key") (api_keys configured) = Some (VStr key) /\
      forall other, other <> lit "api_key" ->
                    assoc_key other (api_keys configured)
                    = assoc_key other (api_keys configuration)) /\
  (truthy api_key = None ->
   lookup_attr configured "api_key" = lookup_attr configuration "api_key") /\
  (forall name,
      name <> "host"%string -> name <> "api_key"%string ->
      lookup_attr configured name = lookup_attr configuration name).
Proof.
  unfold configure.
  destruct (match truthy base_url with
            | Some u => setattr configuration "host" (VStr u)
            | None => Ok configuration
            end) as [c1 | ] eqn:H1; [ cbn [rbind] | discriminate ].
  destruct (configure_host _ _ _ H1) as (Hhost & Hother & _).
  assert (Keys1 : api_keys c1 = api_keys configuration).
  { unfold api_keys. now rewrite (Hother "api_key"%string). }
  destruct (truthy api_key) as [key | ].
  - intros H2. destruct (configure_api_key _ _ _ H2) as (Hkey & Hkeys & Hrest).
    split; [ | split; [ | split ] ].
    + rewrite (Hrest "host"%string) by discriminate. exact Hhost.
    + intros key' [= <-]. split; [ exact Hkey | ].
      intros other Hneq. now rewrite (Hkeys other Hneq), Keys1.
    + discriminate.
    + intros name Hn1 Hn2. now rewrite (Hrest name Hn2), (Hother name Hn1).
  - intros [= <-]. split; [ | split; [ | split ] ].
    + exact Hhost.
    + discriminate.
    + intros _. now apply Hother.
    + intros name Hn1 _. now apply Hother.
Qed.

(** [configure_effect] at work on an example. *)
Lemma configure_effect_witness :
  lookup_attr (VObj [("api_key"%string,
                      VDict [(lit "other", VStr (lit "o")); (lit "api_key", VStr (lit "K"))]);
                     ("host"%string, VStr (lit "U"))] None None) "host"
  = Some (VStr (lit "U")) /\
  assoc_key (lit "other")
            (api_keys (VObj [("api_key"%string,
                              VDict [(lit "other", VStr (lit "o"));
                                     (lit "api_key", VStr (lit "K"))]);
                             ("host"%string, VStr (lit "U"))] None None))
  = Some (VStr (lit "o")).
Proof.
  destruct (configure_effect
              (VObj [("api_key"%string, VDict [(lit "other", VStr (lit "o"))])] None None)
              (VObj [("api_key"%string,
                      VDict [(lit "other", VStr (lit "o")); (lit "api_key", VStr (lit "K"))]);
                     ("host"%string, VStr (lit "U"))] None None)
              (Some (lit "U")) (Some (lit "K")) eq_refl) as (Hhost & Hkey & _).
  split; [ exact Hhost | ].
  destruct (Hkey (lit "K") eq_refl) as [_ Hkeep].
  rewrite (Hkeep (lit "other")); [ reflexivity | discriminate ].
Defined.

(** X11.  Setting up a configuration fails in two ways only: with
    [AttributeError] when what [Configuration()] returned takes no attributes,
    and with [TypeError] when its [api_key] attribute is not a mapping. *)
Theorem configure_failures (configuration : value) (base_url api_key : option pystr)
    (e : exn) :
  configure configuration base_url api_key = Err e ->
  (e = AttributeError /\ is_object configuration = false /\
   (truthy base_url <> None \/ truthy api_key <> None)) \/
  (e = TypeError /\ truthy api_key <> None /\
   exists keys, lookup_attr configuration "api_key" = Some keys /\ dict_items keys = None).
Proof.
  unfold configure. intros H. destruct (is_object configuration) eqn:O.
  - destruct configuration as [ | | | | | | | | attrs cl it]; try discriminate O.
    assert (Keys : forall attrs' key,
               assoc_attr "api_key" attrs' = assoc_attr "api_key" attrs ->
               rbind (setattr (VObj attrs' cl it) "api_key"
                        (getattr_default (VObj attrs' cl it) "api_key" (VDict [])))
                 (fun configuration' =>
                  rbind (getattr configuration' "api_key") (fun keys =>
                  rbind (setitem keys (lit "api_key") (VStr key)) (fun keys' =>
                  setattr configuration' "api_key" keys'))) = Err e ->
               e = TypeError /\
               exists keys, assoc_attr "api_key" attrs = Some keys /\ dict_items keys = None).
    { intros attrs' key Same. cbn [setattr rbind]. unfold getattr. cbn [lookup_attr].
      rewrite assoc_attr_set_same. cbn [rbind]. unfold getattr_default.
      cbn [lookup_attr]. rewrite Same.
      destruct (assoc_attr "api_key" attrs) as [old | ]; [ | discriminate ].
      destruct old as [ | | | | | | | items | a c [items | ]];
        cbn [setitem rbind setattr]; try discriminate;
        intros [= <-]; split; try reflexivity; eexists; split; reflexivity. }
    right.
    destruct (truthy api_key) as [key | ] eqn:K.
    + destruct (truthy base_url) as [u | ]; cbn [setattr rbind] in H.
      * destruct (Keys _ key (assoc_attr_set_other "host" "api_key" (VStr u) attrs
                                ltac:(discriminate)) H) as (-> & keys & L & D).
        split; [ reflexivity | split; [ discriminate | now exists keys ] ].
      * destruct (Keys _ key eq_refl H) as (-> & keys & L & D).
        split; [ reflexivity | split; [ discriminate | now exists keys ] ].
    + destruct (truthy base_url); discriminate H.
  - left.
    destruct (truthy base_url) as [u | ].
    + destruct configuration; try discriminate O; cbn [setattr rbind] in H;
        injection H as <-; repeat split; left; discriminate.
    + cbn [rbind] in H. destruct (truthy api_key) as [key | ]; [ | discriminate H ].
      destruct configuration; try discriminate O; cbn [setattr rbind] in H;
        injection H as <-; repeat split; right; discriminate.
Qed.

(** [configure_failures] at work on an example. *)
Lemma configure_failures_witness :
  configure VNone (Some (lit "U")) None = Err AttributeError /\
  is_object VNone = false.
Proof.
  destruct (configure_failures VNone (Some (lit "U")) None AttributeError eq_refl)
    as [(_ & Hobj & _) | (He & _)]; [ | discriminate He ].
  split; [ reflexivity | exact Hobj ].
Defined.

Lemma bind_ok {A B : Type} (t : list event) (a : A) (k : A -> run B) :
  bind (t, Ok a) k = (t ++ trace (k a), outcome (k a)).
Proof. unfold bind. now destruct (k a). Qed.

Lemma bind_ext {A B : Type} (m : run A) (k k' : A -> run B) :
  (forall a, k a = k' a) -> bind m k = bind m k'.
Proof. intros H. destruct m as [t [a | e]]; simpl; [ now rewrite H | reflexivity ]. Qed.

Lemma first_api_precedence (client_module : value) (before after : list string)
    (name : string) (api : value) :
  (forall earlier, In earlier before -> getattr_default client_module earlier VNone = VNone) ->
  lookup_attr client_module name = Some api ->
  api <> VNone ->
  first_api client_module (before ++ name :: after) = Some api.
Proof.
  intros Hbefore L Hapi. induction before as [ | b before IH]; cbn [app first_api].
  - unfold getattr_default. rewrite L.
    apply is_none_false in Hapi. now rewrite Hapi.
  - rewrite (Hbefore b) by now left. cbn [is_none].
    apply IH. intros earlier Hin. apply Hbefore. now right.
Qed.

Lemma first_api_absent (client_module : value) (names : list string) :
  (forall name, In name names -> getattr_default client_module name VNone = VNone) ->
  first_api client_module names = None.
Proof.
  intros H. induction names as [ | n names IH]; [ reflexivity | ].
  cbn [first_api]. rewrite (H n) by now left. cbn [is_none].
  apply IH. intros name Hin. apply H. now right.
Qed.

(** X12.  When the module has no [GalacticConsoleClient] but has
    [Configuration] and [ApiClient], the configuration is built without
    arguments, set up, and handed to [ApiClient]; the result is wrapped by the
    first of [SystemApi], [SystemsApi], [DefaultApi] that the module has and
    that is not [None], and returned as it is when there is none.  A failure
    at any step ends the creation there: nothing further is called. *)
Theorem openapi_client_creation (env : environment) (client_module : value)
    (base_url api_key : option pystr)
    (attrs1 attrs2 : list (string * value)) (i j : fn_id)
    (items1 items2 : option (list (pystr * value))) :
  hasattr client_module "GalacticConsoleClient" = false ->
  lookup_attr client_module "Configuration" = Some (VObj attrs1 (Some i) items1) ->
  lookup_attr client_module "ApiClient" = Some (VObj attrs2 (Some j) items2) ->
  (forall e,
      call_fn env i [] [] = Err e ->
      _create_client env client_module base_url api_key = ([Called i [] []], Err e)) /\
  (forall configuration e,
      call_fn env i [] [] = Ok configuration ->
      configure configuration base_url api_key = Err e ->
      _create_client env client_module base_url api_key = ([Called i [] []], Err e)) /\
  (forall configuration configured,
      call_fn env i [] [] = Ok configuration ->
      configure configuration base_url api_key = Ok configured ->
      (forall e,
          call_fn env j [configured] [] = Err e ->
          _create_client env client_module base_url api_key
          = ([Called i [] []; Called j [configured] []], Err e)) /\
      (forall api_client,
          call_fn env j [configured] [] = Ok api_client ->
          (forall before name after api,
              api_names = before ++ name :: after ->
              (forall earlier, In earlier before ->
                               getattr_default client_module earlier VNone = VNone) ->
              lookup_attr client_module name = Some api ->
              api <> VNone ->
              _create_client env client_module base_url api_key
              = ([Called i [] []; Called j [configured] []]
                   ++ trace (call env api [api_client] []),
                 outcome (call env api [api_client] []))) /\
          ((forall name, In name api_names ->
                         getattr_default client_module name VNone = VNone) ->
           _create_client env client_module base_url api_key
           = ([Called i [] []; Called j [configured] []], Ok api_client)))).
Proof.
  intros Hno Hconf Hclient.
  assert (Start : _create_client env client_module base_url api_key
                  = bind ([Called i [] []], call_fn env i [] []) (fun configuration =>
                    bind (lift (configure configuration base_url api_key))
                         (fun configured =>
                    bind ([Called j [configured] []], call_fn env j [configured] [])
                         (fun api_client =>
                    match first_api client_module api_names with
                    | Some api => call env api [api_client] []
                    | None => ret api_client
                    end)))).
  { unfold _create_client. rewrite Hno.
    rewrite (hasattr_lookup _ _ _ Hconf), (hasattr_lookup _ _ _ Hclient).
    cbn [andb]. unfold getattr. rewrite Hconf, Hclient.
    rewrite bind_lift_ok. cbn [call].
    apply bind_ext. intros configuration.
    apply bind_ext. intros configured.
    now rewrite bind_lift_ok. }
  rewrite Start. clear Start. split; [ | split ].
  - intros e ->. reflexivity.
  - intros configuration e -> Hcfg. cbn [bind lift]. now rewrite Hcfg.
  - intros configuration configured -> Hcfg. cbn [bind lift]. rewrite Hcfg. split.
    + intros e ->. reflexivity.
    + intros api_client ->. split.
      * intros before name after api Hnames Hbefore L Hapi.
        rewrite Hnames, (first_api_precedence _ _ _ _ _ Hbefore L Hapi).
        now destruct (call env api [api_client] []).
      * intros Hnone. rewrite (first_api_absent _ _ Hnone). reflexivity.
Qed.

(** [openapi_client_creation] at work on an example. *)
Lemma openapi_client_creation_witness :
  _create_client openapi_env openapi_module (Some (lit "U")) None
  = ([Called 1%nat [] [];
      Called 2%nat [VObj [("host"%string, VStr (lit "U"))] None None] [];
      Called 3%nat [VObj [("configuration"%string,
                           VObj [("host"%string, VStr (lit "U"))] None None)] None None] []],
     Ok (VObj [("get_system"%string, VObj [] (Some 4%nat) None);
               ("api_client"%string,
                VObj [("configuration"%string,
                       VObj [("host"%string, VStr (lit "U"))] None None)] None None)]
              None None)).
Proof.
  destruct (openapi_client_creation openapi_env openapi_module (Some (lit "U")) None
              [] [] 1%nat 2%nat None None eq_refl eq_refl eq_refl) as (_ & _ & Built).
  destruct (Built (VObj [] None None) (VObj [("host"%string, VStr (lit "U"))] None None)
              eq_refl eq_refl) as (_ & Wrapped).
  destruct (Wrapped (VObj [("configuration"%string,
                            VObj [("host"%string, VStr (lit "U"))] None None)] None None)
              eq_refl) as (First & _).
  rewrite (First ["SystemApi"%string; "SystemsApi"%string] "DefaultApi"%string []
             (VObj [] (Some 3%nat) None)); try reflexivity.
  - intros earlier [<- | [<- | []]]; reflexivity.
  - discriminate.
Defined.

(** ** More on the command line *)

Lemma startswith_firstn (s r : pystr) (n : nat) : startswith (s ++ r) (firstn n s) = true.
Proof.
  revert n. induction s as [ | a s IH]; intros [ | n]; cbn [firstn app startswith];
    try reflexivity.
  now rewrite N.eqb_refl, IH.
Qed.

Lemma known_option_strings (o : pystr) (act : action) :
  In (o, act) option_string_actions ->
  (o = lit "-h" /\ act = Help) \/ (o = lit "--help" /\ act = Help) \/
  exists d, o = flag d /\ act = Store d.
Proof.
  unfold option_string_actions.
  intros [H | [H | [H | [H | [H | []]]]]]; inversion H; auto;
    right; right; [ exists BaseUrl | exists ApiKey | exists Encoding ]; auto.
Qed.

(** The abbreviation search on a string that starts with two dashes and goes
    on with [b]: a single match shares its first three characters with the
    string. *)
Lemma long_option_tuples_single (b : pystr) (x : option pystr) (act : action)
    (o : pystr) (e : option pystr) :
  flat_map (fun entry : pystr * action =>
              if startswith (fst entry) (dash :: dash :: b)
              then [(snd entry, fst entry, x)] else [])
           option_string_actions
  = [(act, o, e)] ->
  In (o, act) option_string_actions /\
  exists c b', b = c :: b' /\ leading o = [dash; dash; c].
Proof.
  unfold option_string_actions. cbn [flat_map fst snd]. intros H.
  destruct b as [ | c b']; [ vm_compute in H; discriminate H | ].
  replace (startswith (lit "-h") (dash :: dash :: c :: b')) with false in H
    by reflexivity.
  assert (Third : forall name,
             startswith (dash :: dash :: name) (dash :: dash :: c :: b') = true ->
             leading (dash :: dash :: name) = [dash; dash; c]).
  { intros name E. apply startswith_prefix in E. destruct E as (r & E).
    injection E as ->. reflexivity. }
  destruct (startswith (lit "--help") (dash :: dash :: c :: b')) eqn:E1;
    destruct (startswith (lit "--base-url") (dash :: dash :: c :: b')) eqn:E2;
    destruct (startswith (lit "--api-key") (dash :: dash :: c :: b')) eqn:E3;
    destruct (startswith (lit "--encoding") (dash :: dash :: c :: b')) eqn:E4;
    cbn [app] in H; try discriminate H;
    injection H as <- <- _;
    (split; [ simpl; auto 10 | exists c, b'; split; [ reflexivity | ] ]);
    first [ exact (Third _ E1) | exact (Third _ E2) | exact (Third _ E3)
          | exact (Third _ E4) ].
Qed.

(** An argument string taken for an option of the parser carries the first
    three characters of its option string (the two of [-h]). *)
Lemma parse_optional_known (arg_string : pystr) (act : action) (o : pystr)
    (e : option pystr) :
  _parse_optional arg_string = Optional (Some act) o e ->
  In (o, act) option_string_actions /\ startswith arg_string (leading o) = true.
Proof.
  unfold _parse_optional.
  destruct arg_string as [ | c0 tail]; [ discriminate | ].
  destruct (c0 =? dash) eqn:D0; cbn [negb]; [ | discriminate ].
  apply N.eqb_eq in D0. subst c0.
  destruct (lookup_option option_string_actions (dash :: tail)) as [act' | ] eqn:L.
  { intros [= -> <- _]. split; [ now apply lookup_option_in | ].
    rewrite <- (app_nil_r (dash :: tail)) at 1. apply startswith_firstn. }
  destruct tail as [ | c1 tail]; [ discriminate | ].
  destruct (exact_before_equals (dash :: c1 :: tail)) as [[[act' o'] e'] | ] eqn:X.
  { intros [= -> -> _]. unfold exact_before_equals in X.
    destruct (split_equals (dash :: c1 :: tail)) as [[before after] | ] eqn:S;
      [ | discriminate ].
    destruct (lookup_option option_string_actions before) as [act' | ] eqn:L';
      [ | discriminate ].
    injection X as -> -> _. split; [ now apply lookup_option_in | ].
    rewrite (split_equals_app _ _ _ S). apply startswith_firstn. }
  destruct (_get_option_tuples (dash :: c1 :: tail)) as [ | [[act' o'] e'] [ | second more]]
    eqn:T.
  - destruct (negative_number _); [ discriminate | ].
    destruct (existsb _ _); discriminate.
  - intros [= -> -> ->]. unfold _get_option_tuples in T.
    rewrite N.eqb_refl in T. cbn [andb] in T.
    destruct (c1 =? dash) eqn:D1.
    + apply N.eqb_eq in D1. subst c1.
      destruct (split_equals (dash :: dash :: tail)) as [[before after] | ] eqn:S.
      * pose proof (split_equals_app _ _ _ S) as Happ.
        destruct before as [ | b0 [ | b1 before]];
          try (cbn in S; destruct (split_equals tail) as [[? ?] | ]; discriminate S).
        injection Happ as <- <- Htail.
        destruct (long_option_tuples_single _ _ _ _ _ T) as (Hin & c & b' & -> & ->).
        split; [ exact Hin | ]. rewrite Htail. cbn [app startswith].
        now rewrite !N.eqb_refl.
      * destruct (long_option_tuples_single _ _ _ _ _ T) as (Hin & c & b' & -> & ->).
        split; [ exact Hin | ]. cbn [startswith]. now rewrite !N.eqb_refl.
    + revert T. unfold option_string_actions. cbn [flat_map fst snd].
      assert (Long : forall name : pystr,
                 startswith (dash :: dash :: name) (dash :: c1 :: tail) = false).
      { intros name. cbn [startswith]. rewrite N.eqb_refl, (N.eqb_sym dash c1), D1.
        reflexivity. }
      change (lit "--help") with (dash :: dash :: lit "help").
      change (lit "--base-url") with (dash :: dash :: lit "base-url").
      change (lit "--api-key") with (dash :: dash :: lit "api-key").
      change (lit "--encoding") with (dash :: dash :: lit "encoding").
      rewrite !Long.
      assert (Short : forall name : pystr,
                 pystr_eqb (dash :: dash :: name) [dash; c1] = false).
      { intros name. cbn [pystr_eqb]. rewrite N.eqb_refl, (N.eqb_sym dash c1), D1.
        reflexivity. }
      rewrite !Short.
      destruct (pystr_eqb (lit "-h") [dash; c1]) eqn:E1.
      * cbn [app]. intros [= <- <- _]. split; [ simpl; auto | ].
        apply pystr_eqb_eq in E1. injection E1 as <-. reflexivity.
      * destruct (startswith (lit "-h") (dash :: c1 :: tail)) eqn:E2;
          cbn [app]; [ | discriminate ].
        intros [= <- <- _]. split; [ simpl; auto | ].
        apply startswith_prefix in E2. destruct E2 as (r & E2).
        injection E2 as <- _. reflexivity.
  - discriminate.
Qed.






Lemma classify_separator (argv : list pystr) :
  forall items,
    classify argv = Ok items ->
    In (lit "--") argv ->
    In (lit "--", PSeparator) items.
Proof.
  induction argv as [ | arg argv IH]; intros items; cbn [classify];
    [ now intros _ [] | ].
  destruct (pystr_eqb arg (lit "--")) eqn:E.
  - apply pystr_eqb_eq in E. subst arg. intros [= <-] _. now left.
  - intros H [-> | Hin]; [ now rewrite pystr_eqb_refl in E | ].
    destruct (_parse_optional arg); destruct (classify argv) as [rest | ];
      cbn [rbind] in H; try discriminate H; injection H as <-; right; now apply IH.
Qed.

(** Without a separator, classification goes argument by argument. *)
Lemma classify_map (argv : list pystr) :
  forall items,
    classify argv = Ok items ->
    ~ In (lit "--") argv ->
    items = map pattern_of argv /\
    forall a, In a argv -> _parse_optional a <> Ambiguous.
Proof.
  induction argv as [ | arg argv IH]; intros items; cbn [classify map].
  - intros [= <-] _. split; [ reflexivity | now intros a [] ].
  - intros H Hsep.
    destruct (pystr_eqb arg (lit "--")) eqn:E.
    { apply pystr_eqb_eq in E. subst arg. now destruct Hsep; left. }
    assert (Hsep' : ~ In (lit "--") argv) by (intros Hin; apply Hsep; now right).
    unfold pattern_of at 1.
    destruct (_parse_optional arg) eqn:P; destruct (classify argv) as [rest | ];
      cbn [rbind] in H; try discriminate H; injection H as <-;
      destruct (IH rest eq_refl Hsep') as [-> Hnot];
      (split; [ reflexivity | intros a [<- | Hin]; [ now rewrite P | now apply Hnot ] ]).
Qed.


(** An accepted command line has no separator and no ambiguous option. *)
Lemma parse_args_shape (argv : list pystr) (ns : namespace) :
  parse_args argv = Ok ns ->
  ~ In (lit "--") argv /\
  (forall a, In a argv -> _parse_optional a <> Ambiguous) /\
  consume (map pattern_of argv) default_namespace [] = Ok (ns, []).
Proof.
  intros H. destruct (parse_args_inv _ _ H) as (items & Hclass & Hcons).
  assert (Hsep : ~ In (lit "--") argv).
  { intros Hin. pose proof (classify_separator _ _ Hclass Hin) as Hitem.
    destruct (consume_accepts (length items) _ _ _ _ (Nat.le_refl _) Hcons _ _ Hitem)
      as [E | (d & o & e & E)]; discriminate E. }
  destruct (classify_map _ _ Hclass Hsep) as [-> Hnot]. auto.
Qed.


(** An option in the middle of an accepted command line is reached by the
    loop. *)
Lemma consume_reaches (n : nat) :
  forall before ns extras r a act o x after,
    (length before <= n)%nat ->
    consume (before ++ (a, POption act o x) :: after) ns extras = Ok r ->
    exists ns' extras', consume ((a, POption act o x) :: after) ns' extras' = Ok r.
Proof.
  induction n as [ | n IH]; intros before ns extras r a act o x after Hlen.
  - destruct before; [ | simpl in Hlen; lia ]. cbn [app]. eauto.
  - destruct before as [ | [b pat] rest]; [ cbn [app]; eauto | ].
    assert (Hrest : (length rest <= n)%nat) by (simpl in Hlen; lia).
    cbn [app consume].
    destruct pat as [ | | [[ | d] | ] o' [x' | ]]; try discriminate;
      try (now apply IH).
    + destruct (pystr_eqb o' (lit "-h")); discriminate.
    + destruct rest as [ | [v [ | | ? ? ?]] rest']; cbn [app]; try discriminate.
      assert (Hrest' : (length rest' <= n)%nat) by (simpl in Hlen; lia).
      now apply IH.
Qed.

Lemma field_store_other (d d' : dest) (v : pystr) (ns : namespace) :
  d' <> d -> field d (store d' v ns) = field d ns.
Proof. destruct d, d'; simpl; congruence. Qed.

(** Only an option that stores into an attribute changes it. *)
Lemma consume_field (d : dest) (n : nat) :
  forall items ns extras r,
    (length items <= n)%nat ->
    consume items ns extras = Ok r ->
    (forall a o e, ~ In (a, POption (Some (Store d)) o e) items) ->
    field d (fst r) = field d ns.
Proof.
  induction n as [ | n IH]; intros items ns extras r Hlen.
  - destruct items; [ | simpl in Hlen; lia ]. now intros [= <-] _.
  - destruct items as [ | [a pat] rest]; [ now intros [= <-] _ | ].
    assert (Hrest : (length rest <= n)%nat) by (simpl in Hlen; lia).
    cbn [consume].
    destruct pat as [ | | [[ | d'] | ] o [x | ]]; try discriminate;
      try (intros H Hno; apply (IH rest _ _ _ Hrest H);
           intros a' o' e' Hin; exact (Hno a' o' e' (or_intror Hin))).
    + destruct (pystr_eqb o (lit "-h")); discriminate.
    + intros H Hno.
      rewrite (IH rest _ _ _ Hrest H)
        by (intros a' o' e' Hin; exact (Hno a' o' e' (or_intror Hin))).
      apply field_store_other. intros ->. exact (Hno a o (Some x) (or_introl eq_refl)).
    + destruct rest as [ | [v [ | | ? ? ?]] rest']; try discriminate.
      intros H Hno.
      assert (Hrest' : (length rest' <= n)%nat) by (simpl in Hlen; lia).
      rewrite (IH rest' _ _ _ Hrest' H)
        by (intros a' o' e' Hin; exact (Hno a' o' e' (or_intror (or_intror Hin)))).
      apply field_store_other. intros ->. exact (Hno a o None (or_introl eq_refl)).
Qed.



(** X14.  A command line that [parse_args] accepts never contains the
    separator [--], and its first argument, if there is one, is one of the
    three declared options: positional arguments are never accepted. *)
Theorem accepted_command_lines_start_with_a_flag (argv : list pystr) (ns : namespace) :
  parse_args argv = Ok ns ->
  ~ In (lit "--") argv /\
  forall a rest,
    argv = a :: rest ->
    exists d o e, _parse_optional a = Optional (Some (Store d)) o e.
Proof.
  intros H. destruct (parse_args_shape _ _ H) as (Hsep & Hnot & Hcons).
  split; [ exact Hsep | ].
  intros a rest ->. cbn [map] in Hcons. unfold pattern_of at 1 in Hcons.
  assert (Stuck : consume (map pattern_of rest) default_namespace ([] ++ [a])
                  = Ok (ns, []) -> False).
  { intros K.
    destruct (consume_extras (length (map pattern_of rest)) _ _ _ _ (Nat.le_refl _) K)
      as (more & E).
    discriminate E. }
  destruct (_parse_optional a) as [ | [[ | d] | ] o e | ] eqn:P; cbn [consume] in Hcons.
  - now destruct Stuck.
  - destruct e; [ destruct (pystr_eqb o (lit "-h")) | ]; discriminate Hcons.
  - now exists d, o, e.
  - now destruct Stuck.
  - now destruct (Hnot a (or_introl eq_refl)).
Qed.

(** [accepted_command_lines_start_with_a_flag] at work on an example. *)
Lemma accepted_command_lines_start_with_a_flag_witness :
  exists d o e, _parse_optional (lit "--api") = Optional (Some (Store d)) o e.
Proof.
  destruct (accepted_command_lines_start_with_a_flag
              [lit "--api"; lit "k"]
              {| base_url := None; api_key := Some (lit "k"); encoding := lit "utf-8" |}
              eq_refl) as [_ First].
  exact (First (lit "--api") [lit "k"] eq_refl).
Defined.



(** X16.  An option given without an attached value must be followed by a
    value: in a command line that is accepted, what follows it is an argument
    that is neither an option nor the separator.  A declared option at the end
    of the command line, or followed by another option, is never accepted. *)
Theorem stored_options_need_a_value (argv rest : list pystr) (a o : pystr) (d : dest)
    (ns : namespace) :
  _parse_optional a = Optional (Some (Store d)) o None ->
  parse_args (argv ++ a :: rest) = Ok ns ->
  exists v rest',
    rest = v :: rest' /\ _parse_optional v = Positional /\ v <> lit "--".
Proof.
  intros Pa H. destruct (parse_args_shape _ _ H) as (Hsep & Hnot & Hcons).
  rewrite map_app in Hcons. cbn [map] in Hcons. unfold pattern_of at 2 in Hcons.
  rewrite Pa in Hcons.
  destruct (consume_reaches (length (map pattern_of argv)) _ _ _ _ _ _ _ _ _
              (Nat.le_refl _) Hcons) as (ns' & extras' & K).
  cbn [consume] in K.
  destruct rest as [ | v rest']; [ discriminate K | ].
  exists v, rest'. split; [ reflexivity | ].
  assert (Hv : In v (argv ++ a :: v :: rest')).
  { apply in_or_app. right. right. now left. }
  split.
  - cbn [map] in K. unfold pattern_of at 1 in K.
    destruct (_parse_optional v) eqn:Pv; [ reflexivity | discriminate K | ].
    now destruct (Hnot v Hv).
  - intros ->. now apply Hsep.
Qed.

(** [stored_options_need_a_value] at work on an example. *)
Lemma stored_options_need_a_value_witness :
  exists v rest',
    [lit "-1"; lit "--api-key=k"] = v :: rest' /\
    _parse_optional v = Positional /\ v <> lit "--".
Proof.
  apply (stored_options_need_a_value
           [lit "--base-url"; lit "u"] [lit "-1"; lit "--api-key=k"]
           (lit "--enc") (lit "--encoding") Encoding
           {| base_url := Some (lit "u"); api_key := Some (lit "k");
              encoding := lit "-1" |}); reflexivity.
Defined.

Lemma flag_injective (d d' : dest) : flag d = flag d' -> d = d'.
Proof. destruct d, d'; intros H; try reflexivity; discriminate H. Qed.

(** X17.  An attribute keeps its default ([None] for the base URL and the
    API key, [utf-8] for the encoding) on every accepted command line none of
    whose arguments starts with the first three characters of its option. *)
Theorem options_not_given_keep_defaults (argv : list pystr) (ns : namespace) (d : dest) :
  (forall a, In a argv -> startswith a (leading (flag d)) = false) ->
  parse_args argv = Ok ns ->
  field d ns = field d default_namespace.
Proof.
  intros Hno Hparse.
  destruct (parse_args_inv _ _ Hparse) as (items & Hclass & Hcons).
  apply (consume_field d (length items) items default_namespace [] (ns, []));
    [ apply Nat.le_refl | exact Hcons | ].
  intros a o e Hin.
  destruct (classify_items _ _ Hclass _ _ Hin) as [Ha Hp].
  destruct (parse_optional_known _ _ _ _ (Hp _ _ _ eq_refl)) as [Hknown Hstarts].
  destruct (known_option_strings _ _ Hknown)
    as [[_ E] | [[_ E] | (d' & Ho & E)]]; try discriminate E.
  injection E as <-. subst o.
  rewrite (Hno a Ha) in Hstarts. discriminate.
Qed.

(** [options_not_given_keep_defaults] at work on an example. *)
Lemma options_not_given_keep_defaults_witness :
  field ApiKey {| base_url := Some (lit "u"); api_key := None; encoding := lit "ascii" |}
  = None.
Proof.
  apply (options_not_given_keep_defaults
           [lit "--enc=ascii"; lit "--base"; lit "u"]
           {| base_url := Some (lit "u"); api_key := None; encoding := lit "ascii" |}
           ApiKey); [ | reflexivity ].
  intros a [<- | [<- | [<- | []]]]; reflexivity.
Defined.

(** ** Base64 round trip *)

(** Induction on a list three elements at a time. *)
Lemma by_threes {A : Type} (P : list A -> Prop) :
  P [] ->
  (forall a, P [a]) ->
  (forall a b, P [a; b]) ->
  (forall a b c rest, P rest -> P (a :: b :: c :: rest)) ->
  forall l, P l.
Proof.
  intros H0 H1 H2 H3. fix F 1.
  intros [ | a [ | b [ | c rest]]];
    [ exact H0 | exact (H1 a) | exact (H2 a b) | exact (H3 a b c rest (F rest)) ].
Qed.

Lemma b64_char_digit (n : N) :
  n < 64 ->
  b64_digit (b64_char n) = Some n /\ (b64_char n =? b64_pad) = false /\
  (b64_char n <? 128) = true.
Proof.
  intros H.
  assert (K : (fun n => match b64_digit (b64_char n) with
                        | Some d => (d =? n) && negb (b64_char n =? b64_pad)
                                    && (b64_char n <? 128)
                        | None => false
                        end) n = true).
  { apply (forall_below (fun n => match b64_digit (b64_char n) with
                        | Some d => (d =? n) && negb (b64_char n =? b64_pad)
                                    && (b64_char n <? 128)
                        | None => false
                        end) 64); [ now vm_compute | exact H ]. }
  cbv beta in K. destruct (b64_digit (b64_char n)) as [d | ]; [ | discriminate ].
  apply andb_true_iff in K. destruct K as [K K3].
  apply andb_true_iff in K. destruct K as [K1 K2].
  apply N.eqb_eq in K1. apply negb_true_iff in K2. now subst d.
Qed.

Lemma a2b_loop_digit (n : N) (rest : pystr) (quad_pos leftchar pads : N) :
  n < 64 ->
  a2b_loop (b64_char n :: rest) quad_pos leftchar pads false
  = if quad_pos =? 0 then a2b_loop rest 1 n 0 false
    else if quad_pos =? 1 then
      push_byte (N.lor (N.shiftl leftchar 2) (N.shiftr n 4))
                (a2b_loop rest 2 (N.land n 15) 0 false)
    else if quad_pos =? 2 then
      push_byte (N.lor (N.shiftl leftchar 4) (N.shiftr n 2))
                (a2b_loop rest 3 (N.land n 3) 0 false)
    else
      push_byte (N.lor (N.shiftl leftchar 6) n) (a2b_loop rest 0 0 0 false).
Proof.
  intros H. destruct (b64_char_digit n H) as (D & P & _).
  cbn [a2b_loop]. now rewrite P, D.
Qed.

(** A property checked on every pair of numbers below [n] and [m]. *)
Lemma check_pairs (P : N -> N -> bool) (n m : nat) :
  forallb (fun a => forallb (P a) (map N.of_nat (seq 0 m))) (map N.of_nat (seq 0 n)) = true ->
  forall a b, a < N.of_nat n -> b < N.of_nat m -> P a b = true.
Proof.
  intros H a b Ha Hb.
  apply (forall_below (P a) m); [ | exact Hb ].
  exact (forall_below (fun a => forallb (P a) (map N.of_nat (seq 0 m))) n H a Ha).
Qed.

(** The three bytes the decoder assembles from the four digits of a group. *)
Lemma first_byte (a y : N) :
  a < 256 -> y < 16 ->
  N.lor (N.shiftl (a / 4) 2) (N.shiftr (a mod 4 * 16 + y) 4) = a.
Proof.
  intros Ha Hy. apply N.eqb_eq.
  apply (check_pairs (fun a y => N.lor (N.shiftl (a / 4) 2) (N.shiftr (a mod 4 * 16 + y) 4) =? a)
           256 16); [ now vm_compute | exact Ha | exact Hy ].
Qed.

Lemma second_byte (x b y : N) :
  x < 4 -> b < 256 -> y < 4 ->
  N.lor (N.shiftl (N.land (x * 16 + b / 16) 15) 4) (N.shiftr (b mod 16 * 4 + y) 2) = b.
Proof.
  intros Hx Hb Hy. apply N.eqb_eq.
  assert (K : (fun b x => forallb (fun y =>
                 N.lor (N.shiftl (N.land (x * 16 + b / 16) 15) 4)
                       (N.shiftr (b mod 16 * 4 + y) 2) =? b) (map N.of_nat (seq 0 4)))
              b x = true).
  { apply (check_pairs (fun b x => forallb (fun y =>
                 N.lor (N.shiftl (N.land (x * 16 + b / 16) 15) 4)
                       (N.shiftr (b mod 16 * 4 + y) 2) =? b) (map N.of_nat (seq 0 4)))
             256 4); [ now vm_compute | exact Hb | exact Hx ]. }
  cbv beta in K.
  exact (forall_below (fun y =>
                 N.lor (N.shiftl (N.land (x * 16 + b / 16) 15) 4)
                       (N.shiftr (b mod 16 * 4 + y) 2) =? b) 4 K y Hy).
Qed.

Lemma third_byte (x c : N) :
  x < 16 -> c < 256 ->
  N.lor (N.shiftl (N.land (x * 4 + c / 64) 3) 6) (c mod 64) = c.
Proof.
  intros Hx Hc. apply N.eqb_eq.
  apply (check_pairs (fun x c => N.lor (N.shiftl (N.land (x * 4 + c / 64) 3) 6) (c mod 64) =? c)
           16 256); [ now vm_compute | exact Hx | exact Hc ].
Qed.

Lemma byte_of_to_N (x : byte) : byte_of_N (Byte.to_N x) = x.
Proof. unfold byte_of_N. now rewrite Byte.of_to_N. Qed.

Lemma to_N_below (x : byte) : Byte.to_N x < 256.
Proof. pose proof (Byte.to_N_bounded x). lia. Qed.

Lemma a2b_loop_group (a b c : N) (rest : pystr) :
  a < 256 -> b < 256 -> c < 256 ->
  a2b_loop (b64_char (a / 4) :: b64_char (a mod 4 * 16 + b / 16)
              :: b64_char (b mod 16 * 4 + c / 64) :: b64_char (c mod 64) :: rest)
           0 0 0 false
  = push_byte a (push_byte b (push_byte c (a2b_loop rest 0 0 0 false))).
Proof.
  intros Ha Hb Hc.
  rewrite !a2b_loop_digit by euclid.
  change (0 =? 0) with true. change (1 =? 0) with false. change (1 =? 1) with true.
  change (2 =? 0) with false. change (2 =? 1) with false. change (2 =? 2) with true.
  change (3 =? 0) with false. change (3 =? 1) with false. change (3 =? 2) with false.
  cbv iota.
  rewrite (first_byte a (b / 16)) by euclid.
  rewrite (second_byte (a mod 4) b (c / 64)) by euclid.
  now rewrite (third_byte (b mod 16) c) by euclid.
Qed.

Lemma a2b_loop_one (a : N) :
  a < 256 ->
  a2b_loop [b64_char (a / 4); b64_char (a mod 4 * 16); b64_pad; b64_pad] 0 0 0 false
  = Ok [byte_of_N a].
Proof.
  intros Ha. rewrite !a2b_loop_digit by euclid.
  change (0 =? 0) with true. change (1 =? 0) with false. change (1 =? 1) with true.
  cbv iota.
  replace (a mod 4 * 16) with (a mod 4 * 16 + 0) by lia.
  rewrite (first_byte a 0) by lia. reflexivity.
Qed.

Lemma a2b_loop_two (a b : N) :
  a < 256 -> b < 256 ->
  a2b_loop [b64_char (a / 4); b64_char (a mod 4 * 16 + b / 16); b64_char (b mod 16 * 4);
            b64_pad] 0 0 0 false
  = Ok [byte_of_N a; byte_of_N b].
Proof.
  intros Ha Hb. rewrite !a2b_loop_digit by euclid.
  change (0 =? 0) with true. change (1 =? 0) with false. change (1 =? 1) with true.
  change (2 =? 0) with false. change (2 =? 1) with false. change (2 =? 2) with true.
  cbv iota.
  rewrite (first_byte a (b / 16)) by euclid.
  replace (b mod 16 * 4) with (b mod 16 * 4 + 0) by lia.
  rewrite (second_byte (a mod 4) b 0) by euclid. reflexivity.
Qed.

Lemma a2b_loop_encode (raw : bytes) : a2b_loop (b64encode raw) 0 0 0 false = Ok raw.
Proof.
  induction raw as [ | x | x y | x y z rest IH] using by_threes; cbn [b64encode].
  - reflexivity.
  - rewrite a2b_loop_one by apply to_N_below. now rewrite byte_of_to_N.
  - rewrite a2b_loop_two by apply to_N_below. now rewrite !byte_of_to_N.
  - rewrite a2b_loop_group by apply to_N_below. rewrite IH. cbn [push_byte].
    now rewrite !byte_of_to_N.
Qed.

Lemma b64encode_ascii (raw : bytes) : forallb (fun c => c <? 128) (b64encode raw) = true.
Proof.
  assert (A : forall n, n < 64 -> (b64_char n <? 128) = true)
    by (intros n H; apply (b64_char_digit n H)).
  induction raw as [ | x | x y | x y z rest IH] using by_threes;
    cbn [b64encode forallb]; [ reflexivity | | | ];
    pose proof (to_N_below x);
    try pose proof (to_N_below y); try pose proof (to_N_below z);
    rewrite ?A by euclid; try rewrite IH; reflexivity.
Qed.

Lemma b64encode_validates (raw : bytes) : b64decode_validate (b64encode raw) = Ok raw.
Proof.
  unfold b64decode_validate. rewrite b64encode_ascii. unfold a2b_base64_strict.
  destruct (b64encode raw) as [ | c s] eqn:E; [ now rewrite <- E, a2b_loop_encode | ].
  assert (P : (c =? b64_pad) = false).
  { destruct raw as [ | x [ | y [ | z rest]]]; cbn [b64encode] in E;
      [ discriminate E | | | ]; injection E as <- _;
      apply (b64_char_digit (Byte.to_N x / 4)); pose proof (to_N_below x); euclid. }
  rewrite P, <- E. apply a2b_loop_encode.
Qed.

(** X18.  Base64 round trip: the standard base64 text of any bytes validates
    and decodes to those bytes, so the decoder treats the text exactly as it
    treats the bytes themselves; under UTF-8, the base64 text of the UTF-8
    encoding of a text comes out as that text. *)
Theorem base64_round_trip (env : environment) (encoding : pystr) (raw : bytes) :
  b64decode_validate (b64encode raw) = Ok raw /\
  _decode_memory_stream env (VStr (b64encode raw)) encoding
  = _decode_memory_stream env (VBytes raw) encoding /\
  forall text,
    codecs env encoding = Some utf8_codec ->
    forallb code_point text = true ->
    utf8_encode text = Some raw ->
    _decode_memory_stream env (VStr (b64encode raw)) encoding = Ok text.
Proof.
  assert (Same : _decode_memory_stream env (VStr (b64encode raw)) encoding
                 = _decode_memory_stream env (VBytes raw) encoding).
  { unfold _decode_memory_stream. rewrite raw_bytes_of_text, b64encode_validates.
    reflexivity. }
  split; [ apply b64encode_validates | ]. split; [ exact Same | ].
  intros text Hcodec Htext Henc. rewrite Same.
  unfold _decode_memory_stream. cbn [raw_bytes_of rbind].
  apply decode_or_replace_ok.
  unfold bytes_decode. rewrite Hcodec. cbn [decode utf8_codec].
  now rewrite (utf8_round_trip text raw Htext Henc).
Qed.

(** [base64_round_trip] at work on an example. *)
Lemma base64_round_trip_witness :
  _decode_memory_stream (demo_env None VNone) (VStr (lit "w6nigqw=")) (lit "utf-8")
  = Ok [233; 8364].
Proof.
  destruct (base64_round_trip (demo_env None VNone) (lit "utf-8")
              [xc3; xa9; xe2; x82; xac]) as (_ & _ & Text).
  apply (Text [233; 8364]); reflexivity.
Defined.

(** ** What [main] writes *)


